(** * Air-cargo planning problem: state codec, grounding, transitions, heuristics

    A shallow embedding of [my_air_cargo_problems.py] (class [AirCargoProblem]
    and the instance [air_cargo_p1]) together with the properties of its
    specification.  Python lists are Rocq lists, Python sets are [gset]s,
    the encoded state (a [str] of 'T'/'F' characters) is a list of
    characters, and a Python call that can raise returns an [option]. *)

From Stdlib Require Import Ascii String.
From stdpp Require Import base option list strings countable gmap sets.

(** ** Fluents and structured states ([lp_utils], [aimacode.utils]) *)

(** Modelled from the spec: the expression type built by [expr] lives in
    [aimacode.utils], which is not part of the sources at hand.  A fluent's
    identity is its predicate name and its ordered argument tuple; the
    arguments of every literal of this program are object names. *)
Record Expr : Type := mkExpr { op : string; args : list string }.

#[global] Instance Expr_eq_dec : EqDecision Expr.
Proof. solve_decision. Defined.

#[global] Instance Expr_countable : Countable Expr.
Proof.
  refine (inj_countable' (λ e, (op e, args e)) (λ oa, mkExpr oa.1 oa.2) _).
  intros []; reflexivity.
Defined.

(** The literals [expr("At({}, {})".format(x, y))] and
    [expr("In({}, {})".format(x, y))] of the action schemas. *)
Definition At (x y : string) : Expr := mkExpr "At" [x; y].
Definition In_ (x y : string) : Expr := mkExpr "In" [x; y].

(** Modelled from the spec: [lp_utils.FluentState], the structured form of a
    state: an explicit list of positive fluents and one of negative fluents. *)
Record FluentState : Type := mkFluentState { pos : list Expr; neg : list Expr }.

(** Modelled from the spec: [lp_utils.encode_state].  Encoding visits the
    universe in order and emits one symbol per fluent, 'T' when the fluent is
    in the state's positive list and 'F' otherwise. *)
Definition encode_state (fs : FluentState) (fluent_map : list Expr) : list ascii :=
  map (λ fluent, if bool_decide (fluent ∈ pos fs) then "T"%char else "F"%char)
      fluent_map.

(** Modelled from the spec: [lp_utils.decode_state].  Decoding rebuilds the
    positive and negative lists from the symbols at the corresponding
    universe positions: the fluent of a 'T' symbol is positive, the fluent of
    any other symbol is negative.  A symbol beyond the end of the universe
    has no corresponding position: decoding fails there ([None]). *)
Fixpoint decode_state (state : list ascii) (fluent_map : list Expr)
  : option FluentState :=
  match state with
  | [] => Some (mkFluentState [] [])
  | char :: state' =>
      match fluent_map with
      | [] => None
      | fluent :: fluent_map' =>
          fs ← decode_state state' fluent_map';
          Some (if bool_decide (char = "T"%char)
                then mkFluentState (fluent :: pos fs) (neg fs)
                else mkFluentState (pos fs) (fluent :: neg fs))
      end
  end.

(** Modelled from the spec: [FluentState.pos_sentence], the conjunction of
    the positive fluents, kept as the list of its conjuncts. *)
Definition pos_sentence (fs : FluentState) : list Expr := pos fs.

(** ** Knowledge base and actions ([aimacode.logic], [aimacode.planning]) *)

(** Modelled from the spec: [aimacode.logic.PropKB], used as a conjunctive
    knowledge base over ground literals: [tell] asserts the conjuncts of a
    sentence, and a literal is tested by membership in [clauses]. *)
Record PropKB : Type := mkPropKB { clauses : list Expr }.

(** Modelled from the spec: [PropKB()], the empty knowledge base. *)
Definition PropKB_new : PropKB := mkPropKB [].

(** Modelled from the spec: [PropKB.tell], which adds the conjuncts of the
    sentence to the clauses. *)
Definition tell (kb : PropKB) (sentence : list Expr) : PropKB :=
  mkPropKB (clauses kb ++ sentence).

(** Modelled from the spec: [aimacode.planning.Action], a ground action with
    its name and arguments, its positive and negative precondition literals
    and its add and delete effect literals. *)
Record Action : Type := mkAction {
  name : string;
  action_args : list string;
  precond_pos : list Expr;
  precond_neg : list Expr;
  effect_add : list Expr;
  effect_rem : list Expr
}.

(** Modelled from the spec: the constructor
    [Action(action, [precond_pos, precond_neg], [effect_add, effect_rem])];
    the name and the arguments are those of the action expression. *)
Definition Action_init (action : Expr) (precond effect : list Expr * list Expr)
  : Action :=
  mkAction (op action) (args action) precond.1 precond.2 effect.1 effect.2.

(** Modelled from the spec: [Action.check_precond] on the action's own
    arguments.  Every positive precondition must be a clause of the knowledge
    base and no negative precondition may be one. *)
Definition check_precond (a : Action) (kb : PropKB) : bool :=
  forallb (λ clause, bool_decide (clause ∈ clauses kb)) (precond_pos a)
  && forallb (λ clause, negb (bool_decide (clause ∈ clauses kb))) (precond_neg a).

(** ** The problem class *)

Record AirCargoProblem : Type := mkAirCargoProblem {
  state_map : list Expr;
  initial_state_TF : list ascii;
  goal : list Expr;
  cargos : list string;
  planes : list string;
  airports : list string;
  actions_list : list Action
}.

(** The search node handed to the heuristics; only its state is read. *)
Record Node : Type := mkNode { state : list ascii }.

Section Grounding.
Variables (cargos_ planes_ airports_ : list string).

Definition load_action (c p a : string) : Action :=
  Action_init (mkExpr "Load" [c; p; a])
              ([At c a; At p a], [])
              ([In_ c p], [At c a]).

Definition unload_action (c p a : string) : Action :=
  Action_init (mkExpr "Unload" [c; p; a])
              ([In_ c p; At p a], [])
              ([At c a], [In_ c p]).

Definition fly_action (p fr to : string) : Action :=
  Action_init (mkExpr "Fly" [p; fr; to])
              ([At p fr], [])
              ([At p to], [At p fr]).

(** The three nested loops of each grounder, in the list monad. *)
Definition load_actions : list Action :=
  c ← cargos_; p ← planes_; a ← airports_; [load_action c p a].

Definition unload_actions : list Action :=
  c ← cargos_; p ← planes_; a ← airports_; [unload_action c p a].

Definition fly_actions : list Action :=
  fr ← airports_; to ← airports_;
  if bool_decide (fr ≠ to) then p ← planes_; [fly_action p fr to] else [].

Definition get_actions : list Action :=
  load_actions ++ unload_actions ++ fly_actions.
End Grounding.

(** [AirCargoProblem.__init__]. *)
Definition AirCargoProblem_init (cargos_ planes_ airports_ : list string)
    (initial : FluentState) (goal_ : list Expr) : AirCargoProblem :=
  let state_map_ := pos initial ++ neg initial in
  mkAirCargoProblem state_map_ (encode_state initial state_map_) goal_
                    cargos_ planes_ airports_
                    (get_actions cargos_ planes_ airports_).

Section Methods.
Variable self : AirCargoProblem.

(** [actions]: the cached ground actions whose preconditions the knowledge
    base of the decoded positive fluents satisfies. *)
Definition actions (state_ : list ascii) : option (list Action) :=
  fs ← decode_state state_ (state_map self);
  let kb := tell PropKB_new (pos_sentence fs) in
  Some (filter (λ a, check_precond a kb = true) (actions_list self)).

(** [set(xs).issubset(ys)] for a list [ys]. *)
Definition issubset (xs : gset Expr) (ys : list Expr) : bool :=
  forallb (λ x, bool_decide (x ∈ ys)) (elements xs).

(** The two effect loops of [result], on the pair of working sets. *)
Definition rem_loop (effects : list Expr) (sets : gset Expr * gset Expr)
  : gset Expr * gset Expr :=
  foldl (λ st effect_rem_, (st.1 ∖ {[effect_rem_]}, st.2 ∪ {[effect_rem_]}))
        sets effects.

Definition add_loop (effects : list Expr) (sets : gset Expr * gset Expr)
  : gset Expr * gset Expr :=
  foldl (λ st effect_add_, (st.1 ∪ {[effect_add_]}, st.2 ∖ {[effect_add_]}))
        sets effects.

(** The sanity check of [result]. *)
Definition guard (old_state : FluentState) (action : Action) : bool :=
  issubset (list_to_set (precond_pos action)) (pos old_state)
  && issubset (list_to_set (precond_neg action)) (neg old_state).

Definition result (state_ : list ascii) (action : Action)
  : option (list ascii) :=
  old_state ← decode_state state_ (state_map self);
  let pos_fluents : gset Expr := list_to_set (pos old_state) in
  let neg_fluents : gset Expr := list_to_set (neg old_state) in
  let sets :=
    if guard old_state action
    then add_loop (effect_add action)
           (rem_loop (effect_rem action) (pos_fluents, neg_fluents))
    else (pos_fluents, neg_fluents) in
  let new_state := mkFluentState (elements sets.1) (elements sets.2) in
  Some (encode_state new_state (state_map self)).

(** The loop of [goal_test], leaving at the first clause that is missing. *)
Fixpoint goal_loop (kb : PropKB) (goal_ : list Expr) : bool :=
  match goal_ with
  | [] => true
  | clause :: goal' =>
      if negb (bool_decide (clause ∈ clauses kb)) then false
      else goal_loop kb goal'
  end.

Definition goal_test (state_ : list ascii) : option bool :=
  fs ← decode_state state_ (state_map self);
  let kb := tell PropKB_new (pos_sentence fs) in
  Some (goal_loop kb (goal self)).

Definition h_1 (node : Node) : nat := 1.

(** The comprehension of [h_ignore_preconditions] over
    [enumerate(self.state_map)] from index [i]: [node.state[i]] is read
    only when [s in self.goal] holds, and raises when [i] is out of range. *)
Fixpoint unmet_goals (node : Node) (i : nat) (fluents : list Expr)
  : option (list Expr) :=
  match fluents with
  | [] => Some []
  | s :: fluents' =>
      if bool_decide (s ∈ goal self) then
        c ← state node !! i;
        rest ← unmet_goals node (S i) fluents';
        Some (if bool_decide (c = "F"%char) then s :: rest else rest)
      else unmet_goals node (S i) fluents'
  end.

Definition h_ignore_preconditions (node : Node) : option nat :=
  length <$> unmet_goals node 0 (state_map self).
End Methods.

(** ** The level-sum heuristic ([my_planning_graph]) *)

(** Modelled from the spec: the value of the level-sum estimator, a finite
    sum of achievement levels or the sentinel of a goal fluent that the
    relaxed graph never reaches. *)
Inductive Estimate : Type :=
  | Cost (n : nat)
  | NoSolution.

Section PlanningGraph.
Variable self : AirCargoProblem.

(** Modelled from the spec: an action level of the relaxed planning graph
    of [my_planning_graph.PlanningGraph], which is not part of the sources
    at hand.  It holds every ground action whose positive preconditions
    are all present in the previous fluent level; negative preconditions
    are ignored. *)
Definition action_level (fluents : gset Expr) : list Action :=
  filter (λ a, forallb (λ f, bool_decide (f ∈ fluents)) (precond_pos a) = true)
         (actions_list self).

(** Modelled from the spec: the next fluent level, the union of the
    previous level with the add effects of the included actions; delete
    effects are ignored. *)
Definition next_level (fluents : gset Expr) : gset Expr :=
  fluents ∪ list_to_set (a ← action_level fluents; effect_add a).

(** Modelled from the spec: every goal fluent has an achievement level once
    it is present in the current fluent level. *)
Definition goals_achieved (fluents : gset Expr) : bool :=
  forallb (λ g, bool_decide (g ∈ fluents)) (goal self).

(** Modelled from the spec: the fluent levels from a given level on.
    Expansion stops once every goal fluent is present, or at a fixed point
    where the next level adds no fluent.  [fuel] bounds the number of
    expansions; [levelsum_fuel] is always enough (see
    [fluent_levels_fuel]). *)
Fixpoint fluent_levels (fuel : nat) (fluents : gset Expr) : list (gset Expr) :=
  fluents ::
    if goals_achieved fluents then []
    else match fuel with
         | 0 => []
         | S fuel' =>
             let fluents' := next_level fluents in
             if bool_decide (fluents' = fluents) then []
             else fluent_levels fuel' fluents'
         end.

(** Modelled from the spec: a bound on the number of expansions before the
    fixed point, the number of fluents that the ground actions can add. *)
Definition levelsum_fuel : nat :=
  size (list_to_set (a ← actions_list self; effect_add a) : gset Expr).

(** Modelled from the spec: the level of achievement of a fluent, the
    first level (counted from [k]) at which it appears. *)
Fixpoint level_of (g : Expr) (k : nat) (levels : list (gset Expr)) : option nat :=
  match levels with
  | [] => None
  | fluents :: levels' =>
      if bool_decide (g ∈ fluents) then Some k else level_of g (S k) levels'
  end.

(** Modelled from the spec: the sum, over the goal fluents, of their
    achievement levels; the sentinel when one of them has none. *)
Fixpoint level_sum (levels : list (gset Expr)) (goal_ : list Expr) : Estimate :=
  match goal_ with
  | [] => Cost 0
  | g :: goal' =>
      match level_of g 0 levels, level_sum levels goal' with
      | Some k, Cost n => Cost (k + n)
      | _, _ => NoSolution
      end
  end.

(** Modelled from the spec: [PlanningGraph(self, state).h_levelsum()], the
    graph being built from the true fluents of the decoded state. *)
Definition h_levelsum (state_ : list ascii) : option Estimate :=
  fs ← decode_state state_ (state_map self);
  Some (level_sum (fluent_levels levelsum_fuel (list_to_set (pos fs))) (goal self)).

Definition h_pg_levelsum (node : Node) : option Estimate :=
  h_levelsum (state node).
End PlanningGraph.

(** ** The instance [air_cargo_p1] *)

Definition air_cargo_p1 : AirCargoProblem :=
  let cargos_ := ["C1"; "C2"] in
  let planes_ := ["P1"; "P2"] in
  let airports_ := ["JFK"; "SFO"] in
  let pos_ := [At "C1" "SFO"; At "C2" "JFK"; At "P1" "SFO"; At "P2" "JFK"] in
  let neg_ := [At "C2" "SFO"; In_ "C2" "P1"; In_ "C2" "P2";
               At "C1" "JFK"; In_ "C1" "P1"; In_ "C1" "P2";
               At "P1" "JFK"; At "P2" "SFO"] in
  let init := mkFluentState pos_ neg_ in
  let goal_ := [At "C1" "JFK"; At "C2" "SFO"] in
  AirCargoProblem_init cargos_ planes_ airports_ init goal_.

(** ** The instances [air_cargo_p2] and [air_cargo_p3] *)

Definition air_cargo_p2 : AirCargoProblem :=
  let cargos_ := ["C1"; "C2"; "C3"] in
  let planes_ := ["P1"; "P2"; "P3"] in
  let airports_ := ["JFK"; "SFO"; "ATL"] in
  let pos_ := [At "C1" "SFO"; At "C2" "JFK"; At "C3" "ATL";
               At "P1" "SFO"; At "P2" "JFK"; At "P3" "ATL"] in
  let neg_ := [At "C2" "SFO"; At "C2" "ATL";
               In_ "C2" "P1"; In_ "C2" "P2"; In_ "C2" "P3";
               At "C1" "JFK"; At "C1" "ATL";
               In_ "C1" "P1"; In_ "C1" "P2"; In_ "C1" "P3";
               At "C3" "JFK"; At "C3" "SFO";
               In_ "C3" "P1"; In_ "C3" "P2"; In_ "C3" "P3";
               At "P1" "JFK"; At "P1" "ATL";
               At "P2" "SFO"; At "P2" "ATL";
               At "P3" "SFO"; At "P3" "JFK"] in
  let init := mkFluentState pos_ neg_ in
  let goal_ := [At "C1" "JFK"; At "C2" "SFO"; At "C3" "SFO"] in
  AirCargoProblem_init cargos_ planes_ airports_ init goal_.

Definition air_cargo_p3 : AirCargoProblem :=
  let cargos_ := ["C1"; "C2"; "C3"; "C4"] in
  let planes_ := ["P1"; "P2"] in
  let airports_ := ["JFK"; "SFO"; "ATL"; "ORD"] in
  let pos_ := [At "C1" "SFO"; At "C2" "JFK"; At "C3" "ATL"; At "C4" "ORD";
               At "P1" "SFO"; At "P2" "JFK"] in
  let neg_ := [At "C2" "SFO"; At "C2" "ATL"; At "C2" "ORD";
               In_ "C2" "P1"; In_ "C2" "P2";
               At "C1" "JFK"; At "C1" "ATL"; At "C1" "ORD";
               In_ "C1" "P1"; In_ "C1" "P2";
               At "C3" "JFK"; At "C3" "SFO"; At "C3" "ORD";
               In_ "C3" "P1"; In_ "C3" "P2";
               At "C4" "JFK"; At "C4" "ATL"; At "C4" "SFO";
               In_ "C4" "P1"; In_ "C4" "P2";
               At "P1" "JFK"; At "P1" "ATL"; At "P1" "ORD";
               At "P2" "SFO"; At "P2" "ATL"; At "P2" "ORD"] in
  let init := mkFluentState pos_ neg_ in
  let goal_ := [At "C1" "JFK"; At "C2" "SFO"; At "C3" "JFK"; At "C4" "SFO"] in
  AirCargoProblem_init cargos_ planes_ airports_ init goal_.

(** * The object store

    [result] builds its structured states and working sets as Python
    objects and updates them in place.  To speak about what a call mutates,
    the same code is written a second time over a store of objects: lists,
    sets, [FluentState]s, [Action]s and the problem are objects held by
    reference, and a computation maps a store to a store with a value, or
    with no value when an exception is raised.  The encoded state is a
    Python [str], which is immutable, and so are the expressions; both are
    plain values. *)

Inductive obj : Type :=
  | OList (items : list Expr)
  | OChars (items : list ascii)
  | OSet (items : gset Expr)
  | OFluentState (pos_ neg_ : nat)
  | OAction (name_ : string) (args_ : list string)
            (precond_pos_ precond_neg_ effect_add_ effect_rem_ : nat)
  | OActionList (items : list nat)
  | OProblem (state_map_ goal_ actions_list_ : nat).

Definition Py (A : Type) : Type := gmap nat obj → gmap nat obj * option A.

#[global] Instance Py_ret : MRet Py := λ A a h, (h, Some a).

#[global] Instance Py_bind : MBind Py := λ A B k m h,
  match m h with
  | (h', Some a) => k a h'
  | (h', None) => (h', None)
  end.

Definition raise {A} : Py A := λ h, (h, None).

(** A new object lives at a location the store does not use yet. *)
Definition alloc (o : obj) : Py nat := λ h,
  let l := fresh (dom h) in (<[l := o]> h, Some l).

Definition load (l : nat) : Py obj := λ h, (h, h !! l).

Definition store (l : nat) (o : obj) : Py unit := λ h, (<[l := o]> h, Some ()).

Definition get_list (l : nat) : Py (list Expr) :=
  o ← load l; match o with OList xs => mret xs | _ => raise end.

Definition get_chars (l : nat) : Py (list ascii) :=
  o ← load l; match o with OChars cs => mret cs | _ => raise end.

Definition get_set (l : nat) : Py (gset Expr) :=
  o ← load l; match o with OSet X => mret X | _ => raise end.

(** The attributes [pos] and [neg] of a [FluentState] object. *)
Definition get_fluent_state (l : nat) : Py (nat * nat) :=
  o ← load l; match o with OFluentState p n => mret (p, n) | _ => raise end.

(** The attributes [precond_pos], [precond_neg], [effect_add] and
    [effect_rem] of an [Action] object. *)
Definition get_action (l : nat) : Py (nat * nat * nat * nat) :=
  o ← load l;
  match o with OAction _ _ pp pn ea er => mret (pp, pn, ea, er) | _ => raise end.

(** The attribute [state_map] of the problem object. *)
Definition get_state_map (l : nat) : Py nat :=
  o ← load l; match o with OProblem sm _ _ => mret sm | _ => raise end.

(** [xs.append(x)], [X.discard(x)], [X.add(x)], [set(xs)], [list(X)]. *)
Definition list_append (l : nat) (x : Expr) : Py unit :=
  xs ← get_list l; store l (OList (xs ++ [x])).

Definition chars_append (l : nat) (c : ascii) : Py unit :=
  cs ← get_chars l; store l (OChars (cs ++ [c])).

Definition set_discard (l : nat) (x : Expr) : Py unit :=
  X ← get_set l; store l (OSet (X ∖ {[x]})).

Definition set_add (l : nat) (x : Expr) : Py unit :=
  X ← get_set l; store l (OSet (X ∪ {[x]})).

Definition new_set (l : nat) : Py nat :=
  xs ← get_list l; alloc (OSet (list_to_set xs)).

Definition new_list (l : nat) : Py nat :=
  X ← get_set l; alloc (OList (elements X)).

(** [X.issubset(ys)] for a set [X] and a list [ys]. *)
Definition issubset_h (X ys : nat) : Py bool :=
  X' ← get_set X; ys' ← get_list ys; mret (issubset X' ys').

(** A [for] loop over the items of a list. *)
Fixpoint for_each {X} (xs : list X) (body : X → Py unit) : Py unit :=
  match xs with
  | [] => mret ()
  | x :: xs' => _ ← body x; for_each xs' body
  end.

(** Modelled from the spec: the loop of [lp_utils.decode_state] over
    [enumerate(state)] from index [idx]; the fluent of a symbol is
    [fluent_map[idx]], which raises beyond the end of the universe, and is
    appended to the positive or to the negative list of [fs]. *)
Fixpoint decode_loop (fs fluent_map : nat) (idx : nat) (state_ : list ascii)
  : Py unit :=
  match state_ with
  | [] => mret ()
  | char :: state' =>
      fm ← get_list fluent_map;
      match fm !! idx with
      | None => raise
      | Some fluent =>
          '(fs_pos, fs_neg) ← get_fluent_state fs;
          _ ← list_append (if bool_decide (char = "T"%char) then fs_pos else fs_neg)
                          fluent;
          decode_loop fs fluent_map (S idx) state'
      end
  end.

(** Modelled from the spec: [lp_utils.decode_state] on the store; the
    structured state and its two lists are new objects. *)
Definition decode_state_h (state_ : list ascii) (fluent_map : nat) : Py nat :=
  p ← alloc (OList []);
  n ← alloc (OList []);
  fs ← alloc (OFluentState p n);
  _ ← decode_loop fs fluent_map 0 state_;
  mret fs.

(** Modelled from the spec: the loop body of [lp_utils.encode_state] on the
    store: one symbol is appended, 'T' when the fluent is in [fs.pos]. *)
Definition encode_step (state_tf fs : nat) (fluent : Expr) : Py unit :=
  '(fs_pos, _) ← get_fluent_state fs;
  ps ← get_list fs_pos;
  chars_append state_tf
    (if bool_decide (fluent ∈ ps) then "T"%char else "F"%char).

(** Modelled from the spec: [lp_utils.encode_state] on the store; the
    symbols are appended to a new list, joined at the end. *)
Definition encode_state_h (fs fluent_map : nat) : Py (list ascii) :=
  state_tf ← alloc (OChars []);
  fm ← get_list fluent_map;
  _ ← for_each fm (encode_step state_tf fs);
  get_chars state_tf.

(** The sanity check of [result] on the store; the second test is run only
    when the first passes. *)
Definition guard_h (old_pos old_neg precond_pos_ precond_neg_ : nat) : Py bool :=
  X ← new_set precond_pos_;
  b ← issubset_h X old_pos;
  if b : bool then Y ← new_set precond_neg_; issubset_h Y old_neg
  else mret false.

(** The two effect loops of [result] on the store. *)
Definition rem_loop_h (pos_fluents neg_fluents : nat) (effects : list Expr)
  : Py unit :=
  for_each effects
    (λ effect_rem_, _ ← set_discard pos_fluents effect_rem_;
                    set_add neg_fluents effect_rem_).

Definition add_loop_h (pos_fluents neg_fluents : nat) (effects : list Expr)
  : Py unit :=
  for_each effects
    (λ effect_add_, _ ← set_add pos_fluents effect_add_;
                    set_discard neg_fluents effect_add_).

(** [AirCargoProblem.result] on the store. *)
Definition result_h (self : nat) (state_ : list ascii) (action : nat)
  : Py (list ascii) :=
  state_map_ ← get_state_map self;
  old_state ← decode_state_h state_ state_map_;
  '(old_pos, old_neg) ← get_fluent_state old_state;
  pos_fluents ← new_set old_pos;
  neg_fluents ← new_set old_neg;
  '(precond_pos_, precond_neg_, effect_add_, effect_rem_) ← get_action action;
  valid ← guard_h old_pos old_neg precond_pos_ precond_neg_;
  _ ← (if valid : bool
       then rems ← get_list effect_rem_;
            _ ← rem_loop_h pos_fluents neg_fluents rems;
            adds ← get_list effect_add_;
            add_loop_h pos_fluents neg_fluents adds
       else mret ());
  new_pos ← new_list pos_fluents;
  new_neg ← new_list neg_fluents;
  new_state ← alloc (OFluentState new_pos new_neg);
  encode_state_h new_state state_map_.

(** An [Action] object of the store and the action it stands for. *)
Definition rep_action (h : gmap nat obj) (l : nat) (a : Action) : Prop :=
  ∃ pp pn ea er,
    h !! l = Some (OAction (name a) (action_args a) pp pn ea er)
    ∧ h !! pp = Some (OList (precond_pos a))
    ∧ h !! pn = Some (OList (precond_neg a))
    ∧ h !! ea = Some (OList (effect_add a))
    ∧ h !! er = Some (OList (effect_rem a)).

(** The problem object of the store and the problem it stands for, with its
    shared structures: the universe, the goal and the cached actions. *)
Definition rep_problem (h : gmap nat obj) (l : nat) (self : AirCargoProblem)
  : Prop :=
  ∃ sm gl al acts,
    h !! l = Some (OProblem sm gl al)
    ∧ h !! sm = Some (OList (state_map self))
    ∧ h !! gl = Some (OList (goal self))
    ∧ h !! al = Some (OActionList acts)
    ∧ Forall2 (rep_action h) acts (actions_list self).

(** * Properties *)

(** ** Vocabulary of the specification *)

(** A well-formed encoded state has one symbol per universe fluent, each of
    them 'T' or 'F', and describes a truth assignment: positions of the
    universe that carry the same fluent carry the same symbol.  The last
    condition is void when the universe has no duplicates
    ([wf_state_NoDup]), and every encoding meets it ([wf_state_encode]). *)
Definition wf_state (self : AirCargoProblem) (state_ : list ascii) : Prop :=
  length state_ = length (state_map self)
  ∧ Forall (λ c, c = "T"%char ∨ c = "F"%char) state_
  ∧ ∀ i j f, state_map self !! i = Some f → state_map self !! j = Some f →
             state_ !! i = state_ !! j.

(** A fluent holds in a structured state when it is in the positive list and
    fails in it when it is in the negative list. *)
Definition holds (fs : FluentState) (f : Expr) : Prop := f ∈ pos fs.
Definition fails (fs : FluentState) (f : Expr) : Prop := f ∈ neg fs.

#[global] Instance holds_dec fs f : Decision (holds fs f).
Proof. unfold holds. apply _. Defined.

#[global] Instance fails_dec fs f : Decision (fails fs f).
Proof. unfold fails. apply _. Defined.

(** The successor the specification describes: the delete set leaves the
    positive set and joins the negative one, then the add set joins the
    positive set and leaves the negative one. *)
Definition delete_then_add (fs : FluentState) (a : Action) : FluentState :=
  let P : gset Expr := list_to_set (pos fs) in
  let N : gset Expr := list_to_set (neg fs) in
  mkFluentState
    (elements ((P ∖ list_to_set (effect_rem a)) ∪ list_to_set (effect_add a)))
    (elements ((N ∪ list_to_set (effect_rem a)) ∖ list_to_set (effect_add a))).

(** The number of ground actions of a schema in a list of actions. *)
Definition count_named (schema : string) (acts : list Action) : nat :=
  length (filter (λ a, name a = schema) acts).

(** An action is inapplicable when one of its positive preconditions does
    not hold or one of its negative preconditions holds. *)
Definition inapplicable (fs : FluentState) (a : Action) : Prop :=
  Exists (λ f, ¬ holds fs f) (precond_pos a) ∨ Exists (holds fs) (precond_neg a).

(** The action without the effect fluents that are foreign to the universe. *)
Definition drop_foreign_effects (self : AirCargoProblem) (a : Action) : Action :=
  mkAction (name a) (action_args a) (precond_pos a) (precond_neg a)
           (filter (λ f, f ∈ state_map self) (effect_add a))
           (filter (λ f, f ∈ state_map self) (effect_rem a)).

(** ** Vocabulary of the further properties *)

(** The literals an action mentions. *)
Definition action_literals (a : Action) : list Expr :=
  precond_pos a ++ precond_neg a ++ effect_add a ++ effect_rem a.

(** A closed universe lists every fluent once and holds every literal of
    the cached actions and of the goal. *)
Definition closed_universe (self : AirCargoProblem) : Prop :=
  NoDup (state_map self)
  ∧ Forall (λ a, Forall (λ f, f ∈ state_map self) (action_literals a))
           (actions_list self)
  ∧ Forall (λ f, f ∈ state_map self) (goal self).

#[global] Instance closed_universe_dec self : Decision (closed_universe self).
Proof. unfold closed_universe. apply _. Defined.

(** Applying the actions of a plan one after the other with [result]. *)
Fixpoint run_plan (self : AirCargoProblem) (s : list ascii) (plan : list Action)
  : option (list ascii) :=
  match plan with
  | [] => Some s
  | a :: plan' => s' ← result self s a; run_plan self s' plan'
  end.

(** The states a search meets: the initial state, and the [result] of an
    action that [actions] lists in a state it has met. *)
Inductive reachable (self : AirCargoProblem) : list ascii → Prop :=
  | reachable_initial : reachable self (initial_state_TF self)
  | reachable_result s acts a s' :
      reachable self s →
      actions self s = Some acts → a ∈ acts →
      result self s a = Some s' →
      reachable self s'.

(** Every plane is at exactly one airport, and every cargo is either at
    exactly one airport and in no plane, or in exactly one plane and at no
    airport. *)
Definition planes_located (self : AirCargoProblem) (fs : FluentState) : Prop :=
  ∀ p, p ∈ planes self →
    ∃ a, a ∈ airports self ∧ holds fs (At p a)
         ∧ ∀ a', holds fs (At p a') → a' = a.

Definition cargos_located (self : AirCargoProblem) (fs : FluentState) : Prop :=
  ∀ c, c ∈ cargos self →
    (∃ a, a ∈ airports self ∧ holds fs (At c a)
          ∧ (∀ a', holds fs (At c a') → a' = a)
          ∧ ∀ p, ¬ holds fs (In_ c p))
    ∨ (∃ p, p ∈ planes self ∧ holds fs (In_ c p)
            ∧ (∀ p', holds fs (In_ c p') → p' = p)
            ∧ ∀ a, ¬ holds fs (At c a)).

(** ** The instance at work *)

Example p1_initial :
  initial_state_TF air_cargo_p1
  = ["T"; "T"; "T"; "T"; "F"; "F"; "F"; "F"; "F"; "F"; "F"; "F"]%char.
Proof. vm_compute. reflexivity. Qed.

Example p1_result_load :
  result air_cargo_p1 (initial_state_TF air_cargo_p1) (load_action "C1" "P1" "SFO")
  = Some ["F"; "T"; "T"; "T"; "F"; "F"; "F"; "F"; "T"; "F"; "F"; "F"]%char.
Proof. vm_compute. reflexivity. Qed.

Example p1_levelsum :
  h_pg_levelsum air_cargo_p1 (mkNode (initial_state_TF air_cargo_p1)) = Some (Cost 4).
Proof. vm_compute. reflexivity. Qed.

Example p1_h_ignore :
  h_ignore_preconditions air_cargo_p1 (mkNode (initial_state_TF air_cargo_p1)) = Some 2.
Proof. vm_compute. reflexivity. Qed.

(** ** The state codec *)

Lemma encode_state_length fs m : length (encode_state fs m) = length m.
Proof. unfold encode_state. by rewrite length_map. Qed.

Lemma encode_state_lookup fs m i f :
  m !! i = Some f →
  encode_state fs m !! i
  = Some (if bool_decide (f ∈ pos fs) then "T"%char else "F"%char).
Proof. intros Hi. unfold encode_state. by rewrite list_lookup_fmap, Hi. Qed.

Lemma encode_state_TF fs m :
  Forall (λ c, c = "T"%char ∨ c = "F"%char) (encode_state fs m).
Proof.
  unfold encode_state. apply Forall_fmap, Forall_forall. intros f _. simpl.
  case_bool_decide; auto.
Qed.

(** Encoding reads the positive list only, and only on the universe. *)
Lemma encode_state_ext fs fs' m :
  (∀ f, f ∈ m → f ∈ pos fs ↔ f ∈ pos fs') →
  encode_state fs m = encode_state fs' m.
Proof.
  intros H. unfold encode_state. apply map_ext_in. intros f Hf.
  apply list_elem_of_In, H in Hf.
  do 2 case_bool_decide; tauto.
Qed.

Lemma decode_state_is_Some s m :
  length s ≤ length m → is_Some (decode_state s m).
Proof.
  revert m. induction s as [|c s IH]; intros [|f m] Hlen; simpl in *; eauto; try lia.
  destruct (IH m) as [fs ->]; [lia|]. simpl. eauto.
Qed.

Lemma decode_state_wf self s :
  wf_state self s → ∃ fs, decode_state s (state_map self) = Some fs.
Proof. intros [Hlen _]. apply decode_state_is_Some. lia. Qed.

Lemma decode_state_pos s m fs f :
  decode_state s m = Some fs →
  f ∈ pos fs ↔ ∃ i, s !! i = Some "T"%char ∧ m !! i = Some f.
Proof.
  revert m fs. induction s as [|c s IH]; intros [|g m] fs Hd; simpl in Hd;
    simplify_eq.
  1,2: by (simpl; split; [intros ?%elem_of_nil|intros (i & ? & _)]).
  - destruct (decode_state s m) as [fs0|] eqn:Hd0; simplify_eq/=.
    specialize (IH m fs0 Hd0).
    case_bool_decide as Hc; simpl.
    + subst c. rewrite elem_of_cons, IH. split.
      * intros [->|(i & ? & ?)]; [by exists 0|by exists (S i)].
      * intros ([|i] & ? & ?); simplify_eq/=; eauto.
    + rewrite IH. split.
      * intros (i & ? & ?). by exists (S i).
      * intros ([|i] & ? & ?); simplify_eq/=; eauto.
Qed.

Lemma decode_state_neg s m fs f :
  decode_state s m = Some fs →
  f ∈ neg fs ↔ ∃ i c, s !! i = Some c ∧ c ≠ "T"%char ∧ m !! i = Some f.
Proof.
  revert m fs. induction s as [|c s IH]; intros [|g m] fs Hd; simpl in Hd;
    simplify_eq.
  1,2: by (simpl; split; [intros ?%elem_of_nil|intros (i & ? & ? & _)]).
  - destruct (decode_state s m) as [fs0|] eqn:Hd0; simplify_eq/=.
    specialize (IH m fs0 Hd0).
    case_bool_decide as Hc; simpl.
    + subst c. rewrite IH. split.
      * intros (i & c & ? & ? & ?). by exists (S i), c.
      * intros ([|i] & c & ? & ? & ?); simplify_eq/=; eauto.
    + rewrite elem_of_cons, IH. split.
      * intros [->|(i & c' & ? & ? & ?)]; [by exists 0, c|by exists (S i), c'].
      * intros ([|i] & c' & ? & ? & ?); simplify_eq/=; eauto 6.
Qed.

Lemma decode_state_pos_universe s m fs f :
  decode_state s m = Some fs → f ∈ pos fs → f ∈ m.
Proof.
  intros Hd (i & _ & Hi)%(decode_state_pos _ _ _ _ Hd).
  by eapply list_elem_of_lookup_2.
Qed.

Lemma decode_state_neg_universe s m fs f :
  decode_state s m = Some fs → f ∈ neg fs → f ∈ m.
Proof.
  intros Hd (i & c & _ & _ & Hi)%(decode_state_neg _ _ _ _ Hd).
  by eapply list_elem_of_lookup_2.
Qed.

(** Closed world: in a state as long as the universe every universe fluent
    is positive or negative. *)
Lemma decode_state_total s m fs f :
  length s = length m → decode_state s m = Some fs →
  f ∈ m → f ∈ pos fs ∨ f ∈ neg fs.
Proof.
  intros Hlen Hd (i & Hi)%list_elem_of_lookup_1.
  destruct (s !! i) as [c|] eqn:Hc.
  - destruct (decide (c = "T"%char)) as [->|Hne].
    + left. apply (decode_state_pos _ _ _ _ Hd). eauto.
    + right. apply (decode_state_neg _ _ _ _ Hd). eauto.
  - apply lookup_ge_None in Hc. apply lookup_lt_Some in Hi. lia.
Qed.

Lemma wf_state_encode self fs : wf_state self (encode_state fs (state_map self)).
Proof.
  split; [apply encode_state_length|]. split; [apply encode_state_TF|].
  intros i j f Hi Hj.
  by rewrite (encode_state_lookup _ _ _ _ Hi), (encode_state_lookup _ _ _ _ Hj).
Qed.

Lemma wf_state_NoDup self s :
  NoDup (state_map self) →
  length s = length (state_map self) →
  Forall (λ c, c = "T"%char ∨ c = "F"%char) s →
  wf_state self s.
Proof.
  intros Hnd Hlen HTF. split; [done|]. split; [done|].
  intros i j f Hi Hj. by rewrite (NoDup_lookup _ _ _ _ Hnd Hi Hj).
Qed.

(** In a well-formed state no fluent is both positive and negative. *)
Lemma decode_state_disjoint self s fs f :
  wf_state self s → decode_state s (state_map self) = Some fs →
  f ∈ pos fs → f ∈ neg fs → False.
Proof.
  intros (_ & _ & Hsame) Hd (i & Hs & Hi)%(decode_state_pos _ _ _ _ Hd)
    (j & c & Hc & Hne & Hj)%(decode_state_neg _ _ _ _ Hd).
  rewrite (Hsame i j f Hi Hj) in Hs. congruence.
Qed.

(** Round trip: a well-formed state is the encoding of its decoding. *)
Lemma encode_decode_state self s fs :
  wf_state self s →
  decode_state s (state_map self) = Some fs →
  encode_state fs (state_map self) = s.
Proof.
  intros Hwf Hd. pose proof Hwf as (Hlen & HTF & _).
  apply list_eq. intros i.
  destruct (state_map self !! i) as [f|] eqn:Hi.
  - rewrite (encode_state_lookup _ _ _ _ Hi).
    destruct (s !! i) as [c|] eqn:Hc.
    + pose proof (proj1 (Forall_lookup _ _) HTF i c Hc) as [-> | ->].
      * rewrite bool_decide_eq_true_2; [done|].
        apply (decode_state_pos _ _ _ _ Hd). eauto.
      * rewrite bool_decide_eq_false_2; [done|]. intros Hp.
        apply (decode_state_disjoint self s fs f Hwf Hd Hp).
        apply (decode_state_neg _ _ _ _ Hd). exists i, "F"%char. done.
    + apply lookup_ge_None in Hc. apply lookup_lt_Some in Hi. lia.
  - pose proof Hi as Hi'. apply lookup_ge_None in Hi'.
    rewrite (proj2 (lookup_ge_None _ _)) by (rewrite encode_state_length; lia).
    symmetry. apply lookup_ge_None. lia.
Qed.

(** ** The transition function *)

Lemma rem_loop_sets effects (P N : gset Expr) :
  rem_loop effects (P, N) = (P ∖ list_to_set effects, N ∪ list_to_set effects).
Proof.
  unfold rem_loop. revert P N.
  induction effects as [|e effects IH]; intros P N; simpl.
  - f_equal; set_solver.
  - rewrite IH. f_equal; set_solver.
Qed.

Lemma add_loop_sets effects (P N : gset Expr) :
  add_loop effects (P, N) = (P ∪ list_to_set effects, N ∖ list_to_set effects).
Proof.
  unfold add_loop. revert P N.
  induction effects as [|e effects IH]; intros P N; simpl.
  - f_equal; set_solver.
  - rewrite IH. f_equal; set_solver.
Qed.

Lemma issubset_true xs ys :
  issubset (list_to_set xs) ys = true ↔ Forall (λ f, f ∈ ys) xs.
Proof.
  unfold issubset. rewrite forallb_forall, Forall_forall.
  split; intros H f Hf.
  - eapply bool_decide_eq_true_1, H, list_elem_of_In.
    apply elem_of_elements, elem_of_list_to_set, Hf.
  - apply bool_decide_eq_true_2, H.
    by apply list_elem_of_In, elem_of_elements, elem_of_list_to_set in Hf.
Qed.

(** The sanity check passes exactly when the positive preconditions hold
    and the negative ones fail in the decoded state. *)
Lemma guard_true fs a :
  guard fs a = true
  ↔ Forall (holds fs) (precond_pos a) ∧ Forall (fails fs) (precond_neg a).
Proof. unfold guard. by rewrite andb_true_iff, !issubset_true. Qed.

Lemma result_decoded self s a fs :
  decode_state s (state_map self) = Some fs →
  result self s a
  = Some (encode_state
            (if guard fs a then delete_then_add fs a
             else mkFluentState (elements (list_to_set (pos fs) : gset Expr))
                                (elements (list_to_set (neg fs) : gset Expr)))
            (state_map self)).
Proof.
  intros Hd. unfold result. rewrite Hd. simpl.
  destruct (guard fs a); [|done].
  by rewrite rem_loop_sets, add_loop_sets.
Qed.

(** When the sanity check fails the result is the encoding of the decoded
    state itself. *)
Lemma result_guard_false self s a fs :
  decode_state s (state_map self) = Some fs → guard fs a = false →
  result self s a = Some (encode_state fs (state_map self)).
Proof.
  intros Hd Hg. rewrite (result_decoded _ _ _ _ Hd), Hg. f_equal.
  apply encode_state_ext. intros f _. simpl.
  by rewrite elem_of_elements, elem_of_list_to_set.
Qed.

Lemma delete_then_add_pos fs a f :
  f ∈ pos (delete_then_add fs a)
  ↔ f ∈ effect_add a ∨ (f ∈ pos fs ∧ f ∉ effect_rem a).
Proof.
  unfold delete_then_add. simpl. rewrite elem_of_elements. set_solver.
Qed.

(** The positive fluents of a decoded encoding are the universe fluents of
    the encoded positive list. *)
Lemma decode_encode_pos fs m fs' f :
  decode_state (encode_state fs m) m = Some fs' →
  f ∈ pos fs' ↔ f ∈ m ∧ f ∈ pos fs.
Proof.
  intros Hd. rewrite (decode_state_pos _ _ _ _ Hd). split.
  - intros (i & Hs & Hi). rewrite (encode_state_lookup _ _ _ _ Hi) in Hs.
    split; [by eapply list_elem_of_lookup_2|].
    case_bool_decide; [done|]. by simplify_eq.
  - intros [(i & Hi)%list_elem_of_lookup_1 Hp]. exists i. split; [|done].
    rewrite (encode_state_lookup _ _ _ _ Hi). by rewrite bool_decide_eq_true_2.
Qed.


(** C1.  On a well-formed state whose decoding makes every positive
    precondition of the action hold and every negative precondition fail,
    [result] returns the encoding of the delete-then-add successor: the
    delete set leaves the positive set, then the add set joins it.  Symbol by
    symbol, a universe fluent is 'T' in the result exactly when the action
    adds it, or it was positive and the action does not delete it. *)
Theorem result_delete_then_add self s a fs :
  wf_state self s →
  decode_state s (state_map self) = Some fs →
  Forall (holds fs) (precond_pos a) →
  Forall (fails fs) (precond_neg a) →
  result self s a = Some (encode_state (delete_then_add fs a) (state_map self))
  ∧ ∀ i f, state_map self !! i = Some f →
      encode_state (delete_then_add fs a) (state_map self) !! i
      = Some (if bool_decide (f ∈ effect_add a ∨ (f ∈ pos fs ∧ f ∉ effect_rem a))
              then "T"%char else "F"%char).
Proof.
  intros _ Hd Hpos Hneg. split.
  - rewrite (result_decoded _ _ _ _ Hd).
    by rewrite (proj2 (guard_true fs a) (conj Hpos Hneg)).
  - intros i f Hi. rewrite (encode_state_lookup _ _ _ _ Hi).
    by rewrite (bool_decide_ext _ _ (delete_then_add_pos fs a f)).
Qed.

(** The structured form of the initial state of [air_cargo_p1]. *)
Lemma p1_initial_decoded :
  decode_state (initial_state_TF air_cargo_p1) (state_map air_cargo_p1)
  = Some (mkFluentState
            [At "C1" "SFO"; At "C2" "JFK"; At "P1" "SFO"; At "P2" "JFK"]
            [At "C2" "SFO"; In_ "C2" "P1"; In_ "C2" "P2"; At "C1" "JFK";
             In_ "C1" "P1"; In_ "C1" "P2"; At "P1" "JFK"; At "P2" "SFO"]).
Proof. reflexivity. Defined.

Lemma p1_initial_wf : wf_state air_cargo_p1 (initial_state_TF air_cargo_p1).
Proof. apply wf_state_encode. Defined.

Lemma result_delete_then_add_witness :
  let self := air_cargo_p1 in
  let s := initial_state_TF self in
  let a := load_action "C1" "P1" "SFO" in
  let fs := mkFluentState
              [At "C1" "SFO"; At "C2" "JFK"; At "P1" "SFO"; At "P2" "JFK"]
              [At "C2" "SFO"; In_ "C2" "P1"; In_ "C2" "P2"; At "C1" "JFK";
               In_ "C1" "P1"; In_ "C1" "P2"; At "P1" "JFK"; At "P2" "SFO"] in
  wf_state self s
  ∧ decode_state s (state_map self) = Some fs
  ∧ Forall (holds fs) (precond_pos a)
  ∧ Forall (fails fs) (precond_neg a)
  ∧ result self s a = Some (encode_state (delete_then_add fs a) (state_map self)).
Proof.
  intros self s a fs.
  assert (Hp : Forall (holds fs) (precond_pos a)).
  { repeat constructor; unfold holds; by apply bool_decide_unpack. }
  assert (Hn : Forall (fails fs) (precond_neg a)) by constructor.
  split; [apply p1_initial_wf|]. split; [apply p1_initial_decoded|].
  split; [exact Hp|]. split; [exact Hn|].
  apply (result_delete_then_add self s a fs
           p1_initial_wf p1_initial_decoded Hp Hn).
Defined.

(** The sanity check looks the negative preconditions up in the negative
    list, which holds universe fluents only.  With a negative precondition
    foreign to the universe the check fails and the effects are skipped,
    while [actions], which only asks that the literal be no clause, lists the
    action. *)
Example result_foreign_negative_precondition :
  let a := mkAction "Move" ["C1"] [] [At "C1" "JFK"] [] [At "C1" "SFO"] in
  let self := mkAirCargoProblem [At "C1" "SFO"] ["T"%char] [] ["C1"] []
                                ["SFO"; "JFK"] [a] in
  actions self ["T"%char] = Some [a]
  ∧ result self ["T"%char] a = Some ["T"%char].
Proof. split; reflexivity. Qed.

(** Effect fluents foreign to the universe never reach the encoding. *)
Lemma delete_then_add_drop_foreign self fs a :
  encode_state (delete_then_add fs (drop_foreign_effects self a)) (state_map self)
  = encode_state (delete_then_add fs a) (state_map self).
Proof.
  apply encode_state_ext. intros f Hf. rewrite !delete_then_add_pos. simpl.
  rewrite !list_elem_of_filter. tauto.
Qed.

(** C10.  On a well-formed state, whatever the action, [result] returns a
    string with one symbol per fluent of [state_map], again well formed; the
    effect fluents foreign to [state_map] are dropped: the action stripped of
    them yields the same string. *)
Theorem result_keeps_width self s a :
  wf_state self s →
  ∃ s', result self s a = Some s'
        ∧ length s' = length (state_map self)
        ∧ wf_state self s'
        ∧ result self s (drop_foreign_effects self a) = Some s'.
Proof.
  intros Hwf. destruct (decode_state_wf _ _ Hwf) as [fs Hd].
  rewrite !(result_decoded _ _ _ _ Hd). eexists. split; [done|].
  split; [apply encode_state_length|]. split; [apply wf_state_encode|].
  f_equal. change (guard fs (drop_foreign_effects self a)) with (guard fs a).
  destruct (guard fs a); [|done]. apply delete_then_add_drop_foreign.
Qed.

Lemma result_keeps_width_witness :
  wf_state air_cargo_p1 (initial_state_TF air_cargo_p1)
  ∧ ∃ s', result air_cargo_p1 (initial_state_TF air_cargo_p1)
                 (mkAction "Paint" ["C1"] [] [] [mkExpr "Red" ["C1"]] []) = Some s'
          ∧ length s' = 12.
Proof.
  split; [apply p1_initial_wf|].
  destruct (result_keeps_width air_cargo_p1 (initial_state_TF air_cargo_p1)
              (mkAction "Paint" ["C1"] [] [] [mkExpr "Red" ["C1"]] [])
              p1_initial_wf) as (s' & Hr & Hlen & _).
  exists s'. split; [exact Hr|exact Hlen].
Defined.

(** C7.  On a well-formed state in which every add effect of the action
    already holds and no delete effect holds, [result] returns the input
    state: the same string, hence the same positive and negative sets. *)
Theorem result_idempotent_effects self s a fs :
  wf_state self s →
  decode_state s (state_map self) = Some fs →
  Forall (holds fs) (effect_add a) →
  Forall (λ f, ¬ holds fs f) (effect_rem a) →
  result self s a = Some s.
Proof.
  intros Hwf Hd Hadd Hrem.
  rewrite <-(encode_decode_state self s fs Hwf Hd) at 2.
  destruct (guard fs a) eqn:Hg.
  - rewrite (result_decoded _ _ _ _ Hd), Hg. f_equal.
    apply encode_state_ext. intros f _. rewrite delete_then_add_pos.
    rewrite Forall_forall in Hadd, Hrem. unfold holds in *.
    split; [intros [?|[? _]]; auto|]. intros Hp. right. split; [done|].
    intros Hin. by apply (Hrem f Hin).
  - by rewrite (result_guard_false _ _ _ _ Hd Hg).
Qed.

Lemma result_idempotent_effects_witness :
  let self := air_cargo_p1 in
  let s := initial_state_TF self in
  let a := unload_action "C1" "P1" "SFO" in
  let fs := mkFluentState
              [At "C1" "SFO"; At "C2" "JFK"; At "P1" "SFO"; At "P2" "JFK"]
              [At "C2" "SFO"; In_ "C2" "P1"; In_ "C2" "P2"; At "C1" "JFK";
               In_ "C1" "P1"; In_ "C1" "P2"; At "P1" "JFK"; At "P2" "SFO"] in
  wf_state self s
  ∧ decode_state s (state_map self) = Some fs
  ∧ Forall (holds fs) (effect_add a)
  ∧ Forall (λ f, ¬ holds fs f) (effect_rem a)
  ∧ result self s a = Some s.
Proof.
  intros self s a fs.
  assert (Ha : Forall (holds fs) (effect_add a)).
  { repeat constructor; unfold holds; by apply bool_decide_unpack. }
  assert (Hr : Forall (λ f, ¬ holds fs f) (effect_rem a)).
  { repeat constructor; unfold holds; by apply (bool_decide_unpack (_ ∉ _)). }
  split; [apply p1_initial_wf|]. split; [apply p1_initial_decoded|].
  split; [exact Ha|]. split; [exact Hr|].
  apply (result_idempotent_effects self s a fs
           p1_initial_wf p1_initial_decoded Ha Hr).
Defined.

(** On a well-formed state an inapplicable action fails the sanity check
    of [result]. *)
Lemma inapplicable_guard_false self s a fs :
  wf_state self s →
  decode_state s (state_map self) = Some fs →
  inapplicable fs a → guard fs a = false.
Proof.
  intros Hwf Hd Hin. apply not_true_is_false. intros [Hp Hn]%guard_true.
  rewrite Forall_forall in Hp, Hn.
  destruct Hin as [(f & Hf & Hnot)%Exists_exists|(f & Hf & Hh)%Exists_exists].
  - by apply Hnot, Hp.
  - exact (decode_state_disjoint self s fs f Hwf Hd Hh (Hn f Hf)).
Qed.

(** C5, as the code has it.  Called on a well-formed state with an
    inapplicable action, [result] signals nothing: it returns, and what it
    returns is the input state, unchanged. *)
Theorem result_inapplicable_noop self s a fs :
  wf_state self s →
  decode_state s (state_map self) = Some fs →
  inapplicable fs a →
  result self s a = Some s.
Proof.
  intros Hwf Hd Hin.
  rewrite (result_guard_false _ _ _ _ Hd);
    [|by eapply inapplicable_guard_false].
  f_equal. by apply encode_decode_state.
Qed.

Lemma p1_state_map_NoDup : NoDup (state_map air_cargo_p1).
Proof. by apply (bool_decide_unpack _). Defined.

Lemma p1_fly_back_inapplicable :
  inapplicable
    (mkFluentState
       [At "C1" "SFO"; At "C2" "JFK"; At "P1" "SFO"; At "P2" "JFK"]
       [At "C2" "SFO"; In_ "C2" "P1"; In_ "C2" "P2"; At "C1" "JFK";
        In_ "C1" "P1"; In_ "C1" "P2"; At "P1" "JFK"; At "P2" "SFO"])
    (fly_action "P1" "JFK" "SFO").
Proof.
  left. apply Exists_cons_hd. unfold holds.
  by apply (bool_decide_unpack (_ ∉ _)).
Defined.

Lemma result_inapplicable_noop_witness :
  let self := air_cargo_p1 in
  let s := initial_state_TF self in
  let a := fly_action "P1" "JFK" "SFO" in
  let fs := mkFluentState
              [At "C1" "SFO"; At "C2" "JFK"; At "P1" "SFO"; At "P2" "JFK"]
              [At "C2" "SFO"; In_ "C2" "P1"; In_ "C2" "P2"; At "C1" "JFK";
               In_ "C1" "P1"; In_ "C1" "P2"; At "P1" "JFK"; At "P2" "SFO"] in
  wf_state self s
  ∧ decode_state s (state_map self) = Some fs
  ∧ inapplicable fs a
  ∧ result self s a = Some s.
Proof.
  intros self s a fs.
  split; [apply p1_initial_wf|].
  split; [apply p1_initial_decoded|]. split; [apply p1_fly_back_inapplicable|].
  apply (result_inapplicable_noop self s a fs p1_initial_wf
           p1_initial_decoded p1_fly_back_inapplicable).
Defined.

(** C5, as stated, fails.  At the initial state of [air_cargo_p1] the action
    Fly(P1, JFK, SFO) is inapplicable (P1 is not at JFK), yet [result] does
    not signal anything: the call returns, and returns the initial state. *)
Lemma result_inapplicable_returns :
  let self := air_cargo_p1 in
  let s := initial_state_TF self in
  let a := fly_action "P1" "JFK" "SFO" in
  wf_state self s
  ∧ (∃ fs, decode_state s (state_map self) = Some fs ∧ inapplicable fs a)
  ∧ result self s a ≠ None
  ∧ result self s a = Some s.
Proof.
  intros self s a. split; [apply p1_initial_wf|]. split.
  - eexists. split; [apply p1_initial_decoded|apply p1_fly_back_inapplicable].
  - assert (Hr : result self s a = Some s) by (vm_compute; reflexivity).
    split; [by rewrite Hr|exact Hr].
Qed.

(** ** Applicable actions and the goal test *)

Lemma check_precond_true fs a :
  check_precond a (tell PropKB_new (pos_sentence fs)) = true
  ↔ Forall (holds fs) (precond_pos a)
    ∧ Forall (λ f, ¬ holds fs f) (precond_neg a).
Proof.
  unfold check_precond, tell, pos_sentence, holds. simpl.
  rewrite andb_true_iff, !forallb_forall, !Forall_forall.
  split; intros [Hp Hn]; split; intros f Hf.
  - apply list_elem_of_In, Hp in Hf. by apply bool_decide_eq_true_1 in Hf.
  - apply list_elem_of_In, Hn, negb_true_iff in Hf.
    by apply bool_decide_eq_false_1 in Hf.
  - apply list_elem_of_In, Hp in Hf. by apply bool_decide_eq_true_2.
  - apply list_elem_of_In, Hn in Hf.
    by apply negb_true_iff, bool_decide_eq_false_2.
Qed.

(** C2.  On a well-formed state, [actions] returns exactly the ground
    actions of [actions_list] whose positive-precondition literals are all in
    the positive set of the state and whose negative-precondition literals
    are all absent from it. *)
Theorem actions_exactly_applicable self s :
  wf_state self s →
  ∃ fs acts,
    decode_state s (state_map self) = Some fs
    ∧ actions self s = Some acts
    ∧ ∀ a, a ∈ acts
           ↔ a ∈ actions_list self
             ∧ Forall (holds fs) (precond_pos a)
             ∧ Forall (λ f, ¬ holds fs f) (precond_neg a).
Proof.
  intros Hwf. destruct (decode_state_wf _ _ Hwf) as [fs Hd].
  exists fs. eexists. split; [done|]. unfold actions. rewrite Hd. simpl.
  split; [done|]. intros a. rewrite list_elem_of_filter, check_precond_true.
  tauto.
Qed.

Lemma actions_exactly_applicable_witness :
  wf_state air_cargo_p1 (initial_state_TF air_cargo_p1)
  ∧ ∃ acts, actions air_cargo_p1 (initial_state_TF air_cargo_p1) = Some acts.
Proof.
  split; [apply p1_initial_wf|].
  destruct (actions_exactly_applicable air_cargo_p1
              (initial_state_TF air_cargo_p1) p1_initial_wf)
    as (fs & acts & _ & Ha & _).
  by exists acts.
Defined.

Lemma goal_loop_true fs goal_ :
  goal_loop (tell PropKB_new (pos_sentence fs)) goal_ = true
  ↔ Forall (holds fs) goal_.
Proof.
  unfold tell, pos_sentence, holds. simpl.
  induction goal_ as [|g goal_ IH]; simpl.
  - split; [constructor|done].
  - rewrite Forall_cons. case_bool_decide; simpl; [tauto|].
    split; [done|tauto].
Qed.

(** C6.  On a well-formed state, [goal_test] returns true if and only if
    every literal of the goal list is in the positive set of the state; with
    an empty goal list it returns true. *)
Theorem goal_test_iff self s :
  wf_state self s →
  ∃ fs b,
    decode_state s (state_map self) = Some fs
    ∧ goal_test self s = Some b
    ∧ (b = true ↔ Forall (holds fs) (goal self))
    ∧ (goal self = [] → b = true).
Proof.
  intros Hwf. destruct (decode_state_wf _ _ Hwf) as [fs Hd].
  exists fs. eexists. split; [done|]. unfold goal_test. rewrite Hd. simpl.
  split; [done|]. split; [apply goal_loop_true|].
  intros ->. reflexivity.
Qed.

Lemma goal_test_iff_witness :
  wf_state air_cargo_p1 (initial_state_TF air_cargo_p1)
  ∧ ∃ b, goal_test air_cargo_p1 (initial_state_TF air_cargo_p1) = Some b.
Proof.
  split; [apply p1_initial_wf|].
  destruct (goal_test_iff air_cargo_p1 (initial_state_TF air_cargo_p1)
              p1_initial_wf) as (fs & b & _ & Hb & _).
  by exists b.
Defined.

(** ** The ignore-preconditions heuristic *)

(** The comprehension returns, in universe order, the goal fluents whose
    symbol is 'F'; it raises nothing when the state covers the universe. *)
Lemma unmet_goals_spec self node fluents i :
  i + length fluents ≤ length (state node) →
  ∃ L, unmet_goals self node i fluents = Some L
       ∧ L `sublist_of` fluents
       ∧ ∀ f, f ∈ L ↔ ∃ j, fluents !! j = Some f ∧ f ∈ goal self
                           ∧ state node !! (i + j) = Some "F"%char.
Proof.
  revert i. induction fluents as [|g fluents IH]; intros i Hlen; simpl in *.
  - exists []. split; [done|]. split; [done|]. intros f. split.
    + by intros ?%elem_of_nil.
    + by intros (j & ? & _).
  - destruct (IH (S i)) as (L & -> & Hsub & HL); [lia|].
    destruct (lookup_lt_is_Some_2 (state node) i) as [c Hc]; [lia|].
    assert (Hshift : ∀ f, f ∈ L ↔ ∃ j, (g :: fluents) !! S j = Some f
                                   ∧ f ∈ goal self
                                   ∧ state node !! (i + S j) = Some "F"%char).
    { intros f. rewrite HL. by setoid_rewrite Nat.add_succ_r. }
    case_bool_decide as Hg; [rewrite Hc; simpl; case_bool_decide as HF|].
    + subst c. eexists. split; [done|]. split; [by apply sublist_skip|].
      intros f. rewrite elem_of_cons, Hshift. split.
      * intros [->|(j & ?)]; [|by exists (S j)].
        exists 0. by rewrite Nat.add_0_r.
      * intros ([|j] & Hj & ? & ?); [left; by simplify_eq/=|right; eauto].
    + exists L. split; [done|]. split; [by apply sublist_cons|].
      intros f. rewrite Hshift. split.
      * intros (j & ?). by exists (S j).
      * intros ([|j] & Hj & ? & Hs); [|eauto].
        rewrite Nat.add_0_r, Hc in Hs. by simplify_eq/=.
    + exists L. split; [done|]. split; [by apply sublist_cons|].
      intros f. rewrite Hshift. split.
      * intros (j & ?). by exists (S j).
      * intros ([|j] & Hj & ? & Hs); [by simplify_eq/=|eauto].
Qed.

(** In a well-formed state the negative fluents are those of the 'F'
    symbols. *)
Lemma decode_state_neg_F self s fs f :
  wf_state self s → decode_state s (state_map self) = Some fs →
  f ∈ neg fs ↔ ∃ j, state_map self !! j = Some f ∧ s !! j = Some "F"%char.
Proof.
  intros (_ & HTF & _) Hd. rewrite (decode_state_neg _ _ _ _ Hd). split.
  - intros (j & c & Hc & Hne & Hj). exists j. split; [done|].
    by destruct (proj1 (Forall_lookup _ _) HTF j c Hc) as [->| ->].
  - intros (j & Hj & Hs). by exists j, "F"%char.
Qed.

(** C4.  On a well-formed state, with every goal fluent in the universe and
    no duplicate in the universe, [h_ignore_preconditions] is the number of
    goal fluents that are false in the state: the size of the set of goal
    fluents that do not hold, which is also the set of those that fail. *)
Theorem h_ignore_preconditions_counts self node fs :
  wf_state self (state node) →
  decode_state (state node) (state_map self) = Some fs →
  Forall (λ g, g ∈ state_map self) (goal self) →
  NoDup (state_map self) →
  h_ignore_preconditions self node
  = Some (size (filter (λ g, ¬ holds fs g) (list_to_set (goal self) : gset Expr)))
  ∧ filter (λ g, ¬ holds fs g) (list_to_set (goal self) : gset Expr)
    = filter (fails fs) (list_to_set (goal self) : gset Expr).
Proof.
  intros Hwf Hd Hgoal Hnd.
  assert (Hsets : filter (λ g, ¬ holds fs g) (list_to_set (goal self) : gset Expr)
                  = filter (fails fs) (list_to_set (goal self) : gset Expr)).
  { apply set_eq. intros g. rewrite !elem_of_filter, elem_of_list_to_set.
    unfold holds, fails. split; intros [Hg Hin]; (split; [|done]).
    - rewrite Forall_forall in Hgoal.
      destruct (decode_state_total _ _ _ g (proj1 Hwf) Hd (Hgoal g Hin)); done.
    - intros Hp. exact (decode_state_disjoint _ _ _ _ Hwf Hd Hp Hg). }
  split; [|exact Hsets]. rewrite Hsets.
  destruct (unmet_goals_spec self node (state_map self) 0)
    as (L & HL & Hsub & Hin); [simpl; destruct Hwf; lia|].
  unfold h_ignore_preconditions. rewrite HL. simpl. f_equal.
  rewrite <-(size_list_to_set (C:=gset Expr) L)
    by (eapply sublist_NoDup; eauto).
  f_equal. apply set_eq. intros g.
  rewrite elem_of_list_to_set, elem_of_filter, elem_of_list_to_set, Hin.
  unfold fails. rewrite (decode_state_neg_F _ _ _ _ Hwf Hd). simpl.
  split; [intros (j & ? & ? & ?)|intros [(j & ? & ?) ?]]; eauto 6.
Qed.

Lemma p1_goal_in_universe :
  Forall (λ g, g ∈ state_map air_cargo_p1) (goal air_cargo_p1).
Proof. by apply (bool_decide_unpack _). Defined.

Lemma h_ignore_preconditions_counts_witness :
  let self := air_cargo_p1 in
  let node := mkNode (initial_state_TF self) in
  let fs := mkFluentState
              [At "C1" "SFO"; At "C2" "JFK"; At "P1" "SFO"; At "P2" "JFK"]
              [At "C2" "SFO"; In_ "C2" "P1"; In_ "C2" "P2"; At "C1" "JFK";
               In_ "C1" "P1"; In_ "C1" "P2"; At "P1" "JFK"; At "P2" "SFO"] in
  wf_state self (state node)
  ∧ decode_state (state node) (state_map self) = Some fs
  ∧ Forall (λ g, g ∈ state_map self) (goal self)
  ∧ NoDup (state_map self)
  ∧ h_ignore_preconditions self node
    = Some (size (filter (λ g, ¬ holds fs g) (list_to_set (goal self) : gset Expr))).
Proof.
  intros self node fs.
  split; [apply p1_initial_wf|]. split; [apply p1_initial_decoded|].
  split; [apply p1_goal_in_universe|]. split; [apply p1_state_map_NoDup|].
  apply (h_ignore_preconditions_counts self node fs p1_initial_wf
           p1_initial_decoded p1_goal_in_universe p1_state_map_NoDup).
Defined.

(** ** Grounding *)

Lemma length_bind_const {A B} (f : A → list B) (l : list A) k :
  (∀ x, x ∈ l → length (f x) = k) → length (l ≫= f) = length l * k.
Proof.
  induction l as [|x l IH]; intros Hf; csimpl; [done|].
  rewrite length_app, Hf, IH; [lia| |by left].
  intros y Hy. apply Hf. by right.
Qed.

Lemma filter_all {A} (P : A → Prop) `{!∀ x, Decision (P x)} (l : list A) :
  Forall P l → filter P l = l.
Proof.
  induction 1 as [|x l Hx _ IH]; [done|].
  by rewrite filter_cons_True, IH.
Qed.

Lemma filter_none {A} (P : A → Prop) `{!∀ x, Decision (P x)} (l : list A) :
  Forall (λ x, ¬ P x) l → filter P l = [].
Proof.
  induction 1 as [|x l Hx _ IH]; [done|].
  by rewrite filter_cons_False.
Qed.

Lemma length_filter_ne (l : list string) x :
  NoDup l → x ∈ l → length (filter (λ y, x ≠ y) l) = length l - 1.
Proof.
  induction 1 as [|y l Hy Hnd IH]; intros Hx; [by apply elem_of_nil in Hx|].
  rewrite filter_cons. destruct (decide (x = y)) as [->|Hne].
  - rewrite decide_False by (intros H; by apply H). simpl.
    rewrite filter_all; [lia|].
    apply Forall_forall. intros z Hz ->. done.
  - rewrite decide_True by done. simpl. rewrite IH.
    + apply elem_of_cons in Hx as [?|Hx]; [done|].
      destruct l; [by apply elem_of_nil in Hx|simpl; lia].
    + by apply elem_of_cons in Hx as [?|Hx].
Qed.

Lemma length_bind_ne {B} (g : string → list B) (l : list string) x k :
  (∀ y, length (g y) = k) →
  length (l ≫= λ y, if bool_decide (x ≠ y) then g y else [])
  = length (filter (λ y, x ≠ y) l) * k.
Proof.
  intros Hg. induction l as [|y l IH]; csimpl; [done|].
  rewrite length_app, IH, filter_cons.
  destruct (decide (x ≠ y)) as [Hne|Heq].
  - rewrite bool_decide_eq_true_2 by done. simpl. rewrite Hg. lia.
  - rewrite bool_decide_eq_false_2 by done. simpl. lia.
Qed.

Lemma load_actions_length cs ps as_ :
  length (load_actions cs ps as_) = length cs * length ps * length as_.
Proof.
  unfold load_actions.
  rewrite (length_bind_const _ _ (length ps * length as_)); [lia|].
  intros c _. apply length_bind_const. intros p _.
  rewrite (length_bind_const _ _ 1); [lia|done].
Qed.

Lemma unload_actions_length cs ps as_ :
  length (unload_actions cs ps as_) = length cs * length ps * length as_.
Proof.
  unfold unload_actions.
  rewrite (length_bind_const _ _ (length ps * length as_)); [lia|].
  intros c _. apply length_bind_const. intros p _.
  rewrite (length_bind_const _ _ 1); [lia|done].
Qed.

Lemma fly_actions_length ps as_ :
  NoDup as_ →
  length (fly_actions ps as_) = length as_ * (length as_ - 1) * length ps.
Proof.
  intros Hnd. unfold fly_actions.
  rewrite (length_bind_const _ _ ((length as_ - 1) * length ps)); [lia|].
  intros fr Hfr. rewrite (length_bind_ne _ _ _ (length ps)).
  - by rewrite length_filter_ne.
  - intros to. rewrite (length_bind_const _ _ 1); [lia|done].
Qed.

Lemma load_actions_named cs ps as_ :
  Forall (λ a, name a = "Load") (load_actions cs ps as_).
Proof.
  unfold load_actions. apply Forall_bind, Forall_forall. intros c _.
  apply Forall_bind, Forall_forall. intros p _.
  apply Forall_bind, Forall_forall. intros a _. by constructor.
Qed.

Lemma unload_actions_named cs ps as_ :
  Forall (λ a, name a = "Unload") (unload_actions cs ps as_).
Proof.
  unfold unload_actions. apply Forall_bind, Forall_forall. intros c _.
  apply Forall_bind, Forall_forall. intros p _.
  apply Forall_bind, Forall_forall. intros a _. by constructor.
Qed.

Lemma fly_actions_named ps as_ :
  Forall (λ a, name a = "Fly") (fly_actions ps as_).
Proof.
  unfold fly_actions. apply Forall_bind, Forall_forall. intros fr _.
  apply Forall_bind, Forall_forall. intros to _. unfold compose.
  case_bool_decide; [|constructor].
  apply Forall_bind, Forall_forall. intros p _. by constructor.
Qed.

Lemma count_named_all schema acts :
  Forall (λ a, name a = schema) acts → count_named schema acts = length acts.
Proof.
  intros H. unfold count_named. by rewrite filter_all.
Qed.

Lemma count_named_none schema schema' acts :
  schema ≠ schema' →
  Forall (λ a, name a = schema') acts → count_named schema acts = 0.
Proof.
  intros Hne H. unfold count_named.
  rewrite filter_none; [done|].
  eapply Forall_impl; [exact H|]. simpl. congruence.
Qed.

Lemma count_named_app schema acts1 acts2 :
  count_named schema (acts1 ++ acts2)
  = count_named schema acts1 + count_named schema acts2.
Proof. unfold count_named. by rewrite filter_app, length_app. Qed.

(** C3.  For rosters of c cargos, p planes and a (distinct) airports,
    [get_actions] produces exactly c*p*a Load actions, c*p*a Unload actions
    and a*(a-1)*p Fly actions, and nothing else; the constructor calls it
    once and keeps its result in [actions_list]. *)
Theorem get_actions_counts cs ps as_ initial goal_ :
  NoDup as_ →
  let acts := get_actions cs ps as_ in
  count_named "Load" acts = length cs * length ps * length as_
  ∧ count_named "Unload" acts = length cs * length ps * length as_
  ∧ count_named "Fly" acts = length as_ * (length as_ - 1) * length ps
  ∧ length acts = count_named "Load" acts + count_named "Unload" acts
                  + count_named "Fly" acts
  ∧ actions_list (AirCargoProblem_init cs ps as_ initial goal_) = acts.
Proof.
  intros Hnd acts. unfold acts, get_actions.
  rewrite !count_named_app, !length_app.
  rewrite (count_named_all "Load" (load_actions _ _ _))
    by apply load_actions_named.
  rewrite (count_named_all "Unload" (unload_actions _ _ _))
    by apply unload_actions_named.
  rewrite (count_named_all "Fly" (fly_actions _ _))
    by apply fly_actions_named.
  rewrite (count_named_none "Load" "Unload"), (count_named_none "Load" "Fly"),
    (count_named_none "Unload" "Load"), (count_named_none "Unload" "Fly"),
    (count_named_none "Fly" "Load"), (count_named_none "Fly" "Unload");
    try done; try apply load_actions_named; try apply unload_actions_named;
    try apply fly_actions_named.
  rewrite load_actions_length, unload_actions_length, fly_actions_length by done.
  repeat split; lia.
Qed.

Lemma get_actions_counts_witness :
  NoDup ["JFK"; "SFO"]
  ∧ count_named "Fly" (get_actions ["C1"; "C2"] ["P1"; "P2"] ["JFK"; "SFO"]) = 4.
Proof.
  assert (Hnd : NoDup ["JFK"; "SFO"]) by (by apply (bool_decide_unpack _)).
  split; [exact Hnd|].
  apply (get_actions_counts ["C1"; "C2"] ["P1"; "P2"] ["JFK"; "SFO"]
           (mkFluentState [] []) [] Hnd).
Defined.

(** ** The level-sum heuristic *)

Lemma next_level_grows self fluents : fluents ⊆ next_level self fluents.
Proof. unfold next_level. set_solver. Qed.

Lemma next_level_adds self fluents :
  next_level self fluents
  ⊆ fluents ∪ list_to_set (a ← actions_list self; effect_add a).
Proof.
  unfold next_level, action_level. intros f.
  rewrite !elem_of_union, !elem_of_list_to_set, !list_elem_of_bind.
  intros [?|(a & Hf & Ha)]; [by left|right].
  apply list_elem_of_filter in Ha as [_ Ha]. eauto.
Qed.

(** The fuel of [h_levelsum] is enough: every expansion that is not a fixed
    point adds a fluent from the add effects of the ground actions, so more
    fuel never changes the levels. *)
Lemma fluent_levels_fuel self fuel1 fuel2 fluents :
  size ((list_to_set (a ← actions_list self; effect_add a) : gset Expr) ∖ fluents)
  ≤ fuel1 →
  fuel1 ≤ fuel2 →
  fluent_levels self fuel1 fluents = fluent_levels self fuel2 fluents.
Proof.
  set (adds := (list_to_set (a ← actions_list self; effect_add a) : gset Expr)).
  revert fuel2 fluents.
  induction fuel1 as [|fuel1 IH]; intros fuel2 fluents Hsize Hle.
  - destruct fuel2 as [|fuel2]; [done|]. simpl.
    destruct (goals_achieved self fluents); [done|].
    rewrite bool_decide_eq_true_2; [done|].
    assert (adds ∖ fluents ≡ ∅) as Hempty by (apply size_empty_inv; lia).
    pose proof (next_level_grows self fluents) as Hg.
    pose proof (next_level_adds self fluents) as Ha. fold adds in Ha.
    apply set_eq. intros f. split; [|by apply Hg]. intros Hf.
    destruct (decide (f ∈ fluents)) as [|Hnf]; [done|].
    assert (f ∈ adds ∖ fluents) as Hfa by set_solver.
    apply Hempty in Hfa. by apply not_elem_of_empty in Hfa.
  - destruct fuel2 as [|fuel2]; [lia|]. simpl.
    destruct (goals_achieved self fluents); [done|].
    case_bool_decide as Hfix; [done|]. f_equal.
    apply IH; [|lia].
    pose proof (next_level_grows self fluents) as Hg.
    pose proof (next_level_adds self fluents) as Ha. fold adds in Ha.
    assert (adds ∖ next_level self fluents ⊂ adds ∖ fluents) as Hlt.
    { split; [set_solver|]. intros Hsub. apply Hfix. apply set_eq. intros f.
      split; [|by apply Hg]. intros Hf.
      destruct (decide (f ∈ fluents)) as [|Hnf]; [done|].
      assert (f ∈ adds ∖ fluents) as Hfa by set_solver.
      apply Hsub in Hfa. set_solver. }
    apply subset_size in Hlt. lia.
Qed.

Lemma level_sum_zero levels fluents goal_ :
  Forall (λ g, g ∈ fluents) goal_ →
  level_sum (fluents :: levels) goal_ = Cost 0.
Proof.
  induction 1 as [|g goal_ Hg _ IH]; simpl; [done|].
  by rewrite bool_decide_eq_true_2, IH.
Qed.

(** Once every goal fluent holds, the level sum is 0. *)
Lemma h_levelsum_goal self s fs :
  decode_state s (state_map self) = Some fs →
  Forall (holds fs) (goal self) →
  h_levelsum self s = Some (Cost 0).
Proof.
  intros Hd Hgoal. unfold h_levelsum. rewrite Hd. simpl. f_equal.
  destruct (levelsum_fuel self); simpl; apply level_sum_zero;
    (eapply Forall_impl; [exact Hgoal|]); intros g Hg;
    by apply elem_of_list_to_set.
Qed.

(** Once every goal fluent holds in a well-formed state, no goal fluent is
    counted. *)
Lemma h_ignore_preconditions_goal self s fs :
  wf_state self s →
  decode_state s (state_map self) = Some fs →
  Forall (holds fs) (goal self) →
  h_ignore_preconditions self (mkNode s) = Some 0.
Proof.
  intros Hwf Hd Hgoal.
  destruct (unmet_goals_spec self (mkNode s) (state_map self) 0)
    as (L & HL & _ & Hin); [simpl; destruct Hwf; lia|].
  unfold h_ignore_preconditions. rewrite HL. simpl. f_equal.
  destruct L as [|f L]; [done|]. exfalso.
  destruct (proj1 (Hin f)) as (j & Hj & Hg & Hs); [by left|].
  rewrite Forall_forall in Hgoal.
  apply (decode_state_disjoint self s fs f Hwf Hd (Hgoal f Hg)).
  apply (decode_state_neg_F _ _ _ _ Hwf Hd). eauto.
Qed.

Lemma goal_test_true self s :
  goal_test self s = Some true →
  ∃ fs, decode_state s (state_map self) = Some fs
        ∧ Forall (holds fs) (goal self).
Proof.
  unfold goal_test. destruct (decode_state s (state_map self)) as [fs|]; [|done].
  simpl. intros [= Hg]. exists fs. split; [done|]. by apply goal_loop_true.
Qed.

(** C9.  On the instance of [air_cargo_p1], for which the specification
    gives an optimal plan of 6 actions, [h_ignore_preconditions] and
    [h_pg_levelsum] are at most 6 at the initial state (they are 2 and 4),
    and both are exactly 0 at every well-formed state that passes
    [goal_test]. *)
Theorem p1_heuristics :
  let self := air_cargo_p1 in
  (∃ n, h_ignore_preconditions self (mkNode (initial_state_TF self)) = Some n
        ∧ n ≤ 6)
  ∧ (∃ n, h_pg_levelsum self (mkNode (initial_state_TF self)) = Some (Cost n)
          ∧ n ≤ 6)
  ∧ ∀ s, wf_state self s → goal_test self s = Some true →
         h_ignore_preconditions self (mkNode s) = Some 0
         ∧ h_pg_levelsum self (mkNode s) = Some (Cost 0).
Proof.
  intros self. unfold self. split; [|split].
  - exists 2. split; [by vm_compute|lia].
  - exists 4. split; [by vm_compute|lia].
  - intros s Hwf (fs & Hd & Hgoal)%goal_test_true. split.
    + by eapply h_ignore_preconditions_goal.
    + unfold h_pg_levelsum. simpl. by eapply h_levelsum_goal.
Qed.

Lemma p1_heuristics_witness :
  let s := ["F"; "T"; "T"; "T"; "T"; "F"; "F"; "T"; "F"; "F"; "F"; "F"]%char in
  wf_state air_cargo_p1 s
  ∧ goal_test air_cargo_p1 s = Some true
  ∧ h_ignore_preconditions air_cargo_p1 (mkNode s) = Some 0
  ∧ h_pg_levelsum air_cargo_p1 (mkNode s) = Some (Cost 0).
Proof.
  intros s.
  assert (Hwf : wf_state air_cargo_p1 s).
  { apply wf_state_NoDup; [apply p1_state_map_NoDup|reflexivity|].
    by apply (bool_decide_unpack _). }
  assert (Hg : goal_test air_cargo_p1 s = Some true) by reflexivity.
  split; [exact Hwf|]. split; [exact Hg|].
  apply (proj2 (proj2 p1_heuristics) s Hwf Hg).
Defined.

(** ** The store: what a call of [result] reads and writes *)

Lemma run_bind {A B} (m : Py A) (k : A → Py B) h :
  (m ≫= k) h = match m h with
               | (h', Some a) => k a h'
               | (h', None) => (h', None)
               end.
Proof. reflexivity. Qed.

Lemma run_get_list h l xs :
  h !! l = Some (OList xs) → get_list l h = (h, Some xs).
Proof. intros H. unfold get_list, load. by rewrite run_bind, H. Qed.

Lemma run_get_chars h l cs :
  h !! l = Some (OChars cs) → get_chars l h = (h, Some cs).
Proof. intros H. unfold get_chars, load. by rewrite run_bind, H. Qed.

Lemma run_get_set h l X :
  h !! l = Some (OSet X) → get_set l h = (h, Some X).
Proof. intros H. unfold get_set, load. by rewrite run_bind, H. Qed.

Lemma run_get_fluent_state h l p n :
  h !! l = Some (OFluentState p n) → get_fluent_state l h = (h, Some (p, n)).
Proof. intros H. unfold get_fluent_state, load. by rewrite run_bind, H. Qed.

Lemma run_get_action h l nm ar pp pn ea er :
  h !! l = Some (OAction nm ar pp pn ea er) →
  get_action l h = (h, Some (pp, pn, ea, er)).
Proof. intros H. unfold get_action, load. by rewrite run_bind, H. Qed.

Lemma run_get_state_map h l sm gl al :
  h !! l = Some (OProblem sm gl al) → get_state_map l h = (h, Some sm).
Proof. intros H. unfold get_state_map, load. by rewrite run_bind, H. Qed.

Lemma run_list_append h l xs x :
  h !! l = Some (OList xs) →
  list_append l x h = (<[l := OList (xs ++ [x])]> h, Some ()).
Proof. intros H. unfold list_append. by rewrite run_bind, (run_get_list _ _ _ H). Qed.

Lemma run_chars_append h l cs c :
  h !! l = Some (OChars cs) →
  chars_append l c h = (<[l := OChars (cs ++ [c])]> h, Some ()).
Proof. intros H. unfold chars_append. by rewrite run_bind, (run_get_chars _ _ _ H). Qed.

Lemma run_set_discard h l X x :
  h !! l = Some (OSet X) →
  set_discard l x h = (<[l := OSet (X ∖ {[x]})]> h, Some ()).
Proof. intros H. unfold set_discard. by rewrite run_bind, (run_get_set _ _ _ H). Qed.

Lemma run_set_add h l X x :
  h !! l = Some (OSet X) →
  set_add l x h = (<[l := OSet (X ∪ {[x]})]> h, Some ()).
Proof. intros H. unfold set_add. by rewrite run_bind, (run_get_set _ _ _ H). Qed.

(** Allocation extends the store at a location that was free. *)
Lemma alloc_spec o h :
  ∃ l, alloc o h = (<[l := o]> h, Some l) ∧ h !! l = None.
Proof.
  exists (fresh (dom h)). split; [done|].
  apply not_elem_of_dom, is_fresh.
Qed.

Lemma new_set_spec h l xs :
  h !! l = Some (OList xs) →
  ∃ l', new_set l h = (<[l' := OSet (list_to_set xs)]> h, Some l')
        ∧ h !! l' = None.
Proof.
  intros H. destruct (alloc_spec (OSet (list_to_set xs)) h) as (l' & Ha & Hl').
  exists l'. split; [|done].
  unfold new_set. by rewrite run_bind, (run_get_list _ _ _ H).
Qed.

Lemma new_list_spec h l X :
  h !! l = Some (OSet X) →
  ∃ l', new_list l h = (<[l' := OList (elements X)]> h, Some l')
        ∧ h !! l' = None.
Proof.
  intros H. destruct (alloc_spec (OList (elements X)) h) as (l' & Ha & Hl').
  exists l'. split; [|done].
  unfold new_list. by rewrite run_bind, (run_get_set _ _ _ H).
Qed.

Lemma run_issubset_h h X ys X' ys' :
  h !! X = Some (OSet X') → h !! ys = Some (OList ys') →
  issubset_h X ys h = (h, Some (issubset X' ys')).
Proof.
  intros HX Hys. unfold issubset_h.
  by rewrite run_bind, (run_get_set _ _ _ HX), run_bind, (run_get_list _ _ _ Hys).
Qed.

(** A store that agrees with an extension of [hb] outside locations that
    were free in [hb] is an extension of [hb] too. *)
Lemma subseteq_agree_except (hb h h' : gmap nat obj) (own : list nat) :
  hb ⊆ h →
  Forall (λ l, hb !! l = None) own →
  (∀ l, l ∉ own → h' !! l = h !! l) →
  hb ⊆ h'.
Proof.
  intros Hsub Hown Hagree. apply map_subseteq_spec. intros l o Hl.
  rewrite Hagree; [by eapply lookup_weaken|].
  intros Hin. rewrite Forall_forall in Hown. specialize (Hown l Hin). congruence.
Qed.

(** The decoding loop appends to the two lists of the structured state and
    writes nowhere else; it raises exactly when the decoding fails. *)
Lemma decode_loop_spec sm m fsl p n :
  p ≠ n → fsl ≠ p → fsl ≠ n → sm ≠ p → sm ≠ n →
  ∀ s idx h Pl Nl,
    h !! sm = Some (OList m) →
    h !! fsl = Some (OFluentState p n) →
    h !! p = Some (OList Pl) →
    h !! n = Some (OList Nl) →
    ∃ h', (∀ l, l ≠ p → l ≠ n → h' !! l = h !! l)
          ∧ match decode_state s (drop idx m) with
            | Some fs => decode_loop fsl sm idx s h = (h', Some ())
                         ∧ h' !! p = Some (OList (Pl ++ pos fs))
                         ∧ h' !! n = Some (OList (Nl ++ neg fs))
            | None => decode_loop fsl sm idx s h = (h', None)
            end.
Proof.
  intros Hpn Hfp Hfn Hsp Hsn.
  induction s as [|c s IH]; intros idx h Pl Nl Hsm Hfs Hp Hn.
  - exists h. split; [done|]. simpl. by rewrite !app_nil_r.
  - cbn [decode_loop]. rewrite run_bind, (run_get_list _ _ _ Hsm).
    destruct (m !! idx) as [f|] eqn:Hidx.
    + rewrite (drop_S _ _ _ Hidx). cbn [decode_state].
      rewrite run_bind, (run_get_fluent_state _ _ _ _ Hfs). cbn beta iota.
      rewrite run_bind.
      destruct (bool_decide (c = "T"%char)) eqn:Hc.
      * rewrite (run_list_append _ _ _ _ Hp).
        destruct (IH (S idx) (<[p := OList (Pl ++ [f])]> h) (Pl ++ [f]) Nl)
          as (h' & Hagree & Hrun).
        { by rewrite lookup_insert_ne. }
        { by rewrite lookup_insert_ne. }
        { by rewrite lookup_insert_eq. }
        { by rewrite lookup_insert_ne. }
        exists h'. split.
        { intros l Hlp Hln. rewrite Hagree by done. by rewrite lookup_insert_ne. }
        destruct (decode_state s (drop (S idx) m)) as [fs|]; simpl; [|done].
        destruct Hrun as (-> & Hp' & Hn'). rewrite <-app_assoc in Hp'. done.
      * rewrite (run_list_append _ _ _ _ Hn).
        destruct (IH (S idx) (<[n := OList (Nl ++ [f])]> h) Pl (Nl ++ [f]))
          as (h' & Hagree & Hrun).
        { by rewrite lookup_insert_ne. }
        { by rewrite lookup_insert_ne. }
        { by rewrite lookup_insert_ne. }
        { by rewrite lookup_insert_eq. }
        exists h'. split.
        { intros l Hlp Hln. rewrite Hagree by done. by rewrite lookup_insert_ne. }
        destruct (decode_state s (drop (S idx) m)) as [fs|]; simpl; [|done].
        destruct Hrun as (-> & Hp' & Hn'). rewrite <-app_assoc in Hn'. done.
    + exists h. split; [done|].
      rewrite drop_ge by (by apply lookup_ge_None). done.
Qed.

(** Decoding on the store extends the store by new objects that hold the
    structured state of [decode_state], and raises when [decode_state]
    fails. *)
Lemma decode_state_h_spec h sm m s :
  h !! sm = Some (OList m) →
  ∃ h', h ⊆ h'
        ∧ match decode_state s m with
          | Some fs => ∃ l p n,
              decode_state_h s sm h = (h', Some l)
              ∧ h' !! l = Some (OFluentState p n)
              ∧ h' !! p = Some (OList (pos fs))
              ∧ h' !! n = Some (OList (neg fs))
          | None => decode_state_h s sm h = (h', None)
          end.
Proof.
  intros Hsm. unfold decode_state_h.
  destruct (alloc_spec (OList []) h) as (p & Hap & Hp).
  set (h1 := <[p := OList []]> h) in *.
  destruct (alloc_spec (OList []) h1) as (n & Han & Hn).
  set (h2 := <[n := OList []]> h1) in *.
  destruct (alloc_spec (OFluentState p n) h2) as (l & Hal & Hl).
  set (h3 := <[l := OFluentState p n]> h2) in *.
  assert (p ≠ n) as Hpn.
  { intros <-. unfold h1 in Hn. by rewrite lookup_insert_eq in Hn. }
  assert (n ≠ l) as Hnl.
  { intros <-. unfold h2 in Hl. by rewrite lookup_insert_eq in Hl. }
  assert (p ≠ l) as Hpl.
  { intros <-. unfold h2, h1 in Hl.
    by rewrite lookup_insert_ne, lookup_insert_eq in Hl. }
  assert (h1 !! sm = Some (OList m)) as Hsm1.
  { unfold h1. rewrite lookup_insert_ne; [done|]. congruence. }
  assert (h2 !! sm = Some (OList m)) as Hsm2.
  { unfold h2. rewrite lookup_insert_ne; [done|]. congruence. }
  assert (h3 !! sm = Some (OList m)) as Hsm3.
  { unfold h3. rewrite lookup_insert_ne; [done|]. congruence. }
  assert (sm ≠ p) as Hsp by congruence.
  assert (sm ≠ n) as Hsn by congruence.
  destruct (decode_loop_spec sm m l p n Hpn (not_eq_sym Hpl) (not_eq_sym Hnl)
              Hsp Hsn s 0 h3 [] []) as (h' & Hagree & Hrun); [done|..].
  { unfold h3. by rewrite lookup_insert_eq. }
  { unfold h3, h2, h1.
    by rewrite lookup_insert_ne, lookup_insert_ne, lookup_insert_eq. }
  { unfold h3, h2. by rewrite lookup_insert_ne, lookup_insert_eq. }
  exists h'. split.
  - apply (subseteq_agree_except h h3 h' [p; n]).
    + unfold h3, h2, h1.
      do 3 (etrans; [|by apply insert_subseteq]). done.
    + repeat constructor; [done|].
      unfold h1 in Hn. destruct (decide (p = n)); [done|].
      by rewrite lookup_insert_ne in Hn.
    + intros x Hx. apply Hagree; intros ->; apply Hx; set_solver.
  - rewrite run_bind, Hap, run_bind, Han, run_bind, Hal, run_bind.
    rewrite drop_0 in Hrun.
    destruct (decode_state s m) as [fs|]; [|by rewrite Hrun].
    destruct Hrun as (-> & Hp' & Hn'). exists l, p, n.
    split; [done|]. split; [|done].
    rewrite Hagree by done. unfold h3. by rewrite lookup_insert_eq.
Qed.

(** The sanity check on the store computes [guard] and only adds objects. *)
Lemma guard_h_spec h op on pp pn fs a :
  h !! op = Some (OList (pos fs)) →
  h !! on = Some (OList (neg fs)) →
  h !! pp = Some (OList (precond_pos a)) →
  h !! pn = Some (OList (precond_neg a)) →
  ∃ h', guard_h op on pp pn h = (h', Some (guard fs a)) ∧ h ⊆ h'.
Proof.
  intros Hop Hon Hpp Hpn. unfold guard_h, guard.
  destruct (new_set_spec h pp _ Hpp) as (X & HX & HXfree).
  rewrite run_bind, HX, run_bind.
  set (h1 := <[X := _]> h) in *.
  assert (h ⊆ h1) as Hsub1 by (by apply insert_subseteq).
  rewrite (run_issubset_h h1 X op (list_to_set (precond_pos a)) (pos fs));
    [|by apply lookup_insert_eq|by eapply lookup_weaken].
  destruct (issubset (list_to_set (precond_pos a)) (pos fs)); simpl.
  - destruct (new_set_spec h1 pn (precond_neg a)) as (Y & HY & HYfree);
      [by eapply lookup_weaken|].
    rewrite run_bind, HY.
    set (h2 := <[Y := _]> h1) in *.
    assert (h1 ⊆ h2) as Hsub2 by (by apply insert_subseteq).
    rewrite (run_issubset_h h2 Y on (list_to_set (precond_neg a)) (neg fs));
      [|by apply lookup_insert_eq|by do 2 (eapply lookup_weaken; [|done])].
    eexists. split; [done|]. by etrans.
  - eexists. split; [done|]. done.
Qed.

(** The two effect loops update the two working sets as [rem_loop] and
    [add_loop] do, and write nowhere else. *)
Lemma rem_loop_h_spec pf nf effects :
  pf ≠ nf →
  ∀ h P N,
    h !! pf = Some (OSet P) → h !! nf = Some (OSet N) →
    ∃ h', rem_loop_h pf nf effects h = (h', Some ())
          ∧ h' !! pf = Some (OSet (rem_loop effects (P, N)).1)
          ∧ h' !! nf = Some (OSet (rem_loop effects (P, N)).2)
          ∧ ∀ l, l ≠ pf → l ≠ nf → h' !! l = h !! l.
Proof.
  intros Hne. unfold rem_loop_h, rem_loop.
  induction effects as [|e effects IH]; intros h P N Hpf Hnf.
  - exists h. done.
  - cbn [for_each foldl].
    rewrite run_bind, run_bind, (run_set_discard _ _ _ _ Hpf).
    rewrite (run_set_add _ nf N) by (by rewrite lookup_insert_ne).
    destruct (IH (<[nf := OSet (N ∪ {[e]})]> (<[pf := OSet (P ∖ {[e]})]> h))
                (P ∖ {[e]}) (N ∪ {[e]})) as (h' & Hrun & Hpf' & Hnf' & Hagree).
    { by rewrite lookup_insert_ne, lookup_insert_eq. }
    { by rewrite lookup_insert_eq. }
    exists h'. split; [done|]. split; [done|]. split; [done|].
    intros l Hl1 Hl2. rewrite Hagree by done.
    by rewrite !lookup_insert_ne.
Qed.

Lemma add_loop_h_spec pf nf effects :
  pf ≠ nf →
  ∀ h P N,
    h !! pf = Some (OSet P) → h !! nf = Some (OSet N) →
    ∃ h', add_loop_h pf nf effects h = (h', Some ())
          ∧ h' !! pf = Some (OSet (add_loop effects (P, N)).1)
          ∧ h' !! nf = Some (OSet (add_loop effects (P, N)).2)
          ∧ ∀ l, l ≠ pf → l ≠ nf → h' !! l = h !! l.
Proof.
  intros Hne. unfold add_loop_h, add_loop.
  induction effects as [|e effects IH]; intros h P N Hpf Hnf.
  - exists h. done.
  - cbn [for_each foldl].
    rewrite run_bind, run_bind, (run_set_add _ _ _ _ Hpf).
    rewrite (run_set_discard _ nf N) by (by rewrite lookup_insert_ne).
    destruct (IH (<[nf := OSet (N ∖ {[e]})]> (<[pf := OSet (P ∪ {[e]})]> h))
                (P ∪ {[e]}) (N ∖ {[e]})) as (h' & Hrun & Hpf' & Hnf' & Hagree).
    { by rewrite lookup_insert_ne, lookup_insert_eq. }
    { by rewrite lookup_insert_eq. }
    exists h'. split; [done|]. split; [done|]. split; [done|].
    intros l Hl1 Hl2. rewrite Hagree by done.
    by rewrite !lookup_insert_ne.
Qed.

(** The encoding loop appends one symbol per fluent to its own list and
    writes nowhere else. *)
Lemma encode_loop_spec st fsl p n fs fm :
  st ≠ fsl → st ≠ p →
  ∀ h acc,
    h !! st = Some (OChars acc) →
    h !! fsl = Some (OFluentState p n) →
    h !! p = Some (OList (pos fs)) →
    ∃ h', for_each fm (encode_step st fsl) h = (h', Some ())
          ∧ h' !! st = Some (OChars (acc ++ encode_state fs fm))
          ∧ ∀ l, l ≠ st → h' !! l = h !! l.
Proof.
  intros Hsf Hsp.
  induction fm as [|f fm IH]; intros h acc Hst Hfs Hp.
  - exists h. simpl. by rewrite app_nil_r.
  - cbn [for_each]. rewrite run_bind. unfold encode_step at 1.
    rewrite run_bind, (run_get_fluent_state _ _ _ _ Hfs). cbn beta iota.
    rewrite run_bind, (run_get_list _ _ _ Hp).
    rewrite (run_chars_append _ _ _ _ Hst).
    match goal with |- context [<[st := OChars ?cs]> h] =>
      destruct (IH (<[st := OChars cs]> h) cs) as (h' & Hrun & Hst' & Hagree)
    end.
    { by rewrite lookup_insert_eq. }
    { by rewrite lookup_insert_ne. }
    { by rewrite lookup_insert_ne. }
    exists h'. split; [done|]. split.
    + rewrite Hst'. by rewrite <-app_assoc.
    + intros l Hl. rewrite Hagree by done. by rewrite lookup_insert_ne.
Qed.

(** Encoding on the store returns the string of [encode_state] and only
    adds an object. *)
Lemma encode_state_h_spec h fsl p n fs sm m :
  h !! fsl = Some (OFluentState p n) →
  h !! p = Some (OList (pos fs)) →
  h !! sm = Some (OList m) →
  ∃ h', encode_state_h fsl sm h = (h', Some (encode_state fs m)) ∧ h ⊆ h'.
Proof.
  intros Hfs Hp Hsm. unfold encode_state_h.
  destruct (alloc_spec (OChars []) h) as (st & Hal & Hst).
  set (h1 := <[st := OChars []]> h) in *.
  assert (h ⊆ h1) as Hsub by (by apply insert_subseteq).
  assert (st ≠ fsl) as Hsf by congruence.
  assert (st ≠ p) as Hsp by congruence.
  destruct (encode_loop_spec st fsl p n fs m Hsf Hsp h1 [])
    as (h' & Hrun & Hst' & Hagree).
  { by apply lookup_insert_eq. }
  { by eapply lookup_weaken. }
  { by eapply lookup_weaken. }
  exists h'. split.
  - rewrite run_bind, Hal, run_bind.
    rewrite (run_get_list h1 sm m) by (by eapply lookup_weaken).
    rewrite run_bind, Hrun. by apply run_get_chars.
  - apply (subseteq_agree_except h h1 h' [st]); [done|by repeat constructor|].
    intros l Hl. apply Hagree. intros ->. apply Hl. by left.
Qed.

(** The guarded effect loops leave the working sets of [result] in the two
    objects [pf] and [nf], which the call created, and keep every object of
    the store [hb] of before the call. *)
Lemma effects_h_spec hb h pf nf ea er (valid : bool) a P N :
  hb ⊆ h → hb !! pf = None → hb !! nf = None → pf ≠ nf →
  hb !! ea = Some (OList (effect_add a)) →
  hb !! er = Some (OList (effect_rem a)) →
  h !! pf = Some (OSet P) → h !! nf = Some (OSet N) →
  let sets := if valid
              then add_loop (effect_add a) (rem_loop (effect_rem a) (P, N))
              else (P, N) in
  ∃ h', (if valid
         then rems ← get_list er;
              _ ← rem_loop_h pf nf rems;
              adds ← get_list ea;
              add_loop_h pf nf adds
         else mret ()) h = (h', Some ())
        ∧ hb ⊆ h'
        ∧ h' !! pf = Some (OSet sets.1)
        ∧ h' !! nf = Some (OSet sets.2).
Proof.
  intros Hsub Hpf0 Hnf0 Hne Hea Her Hpf Hnf sets. unfold sets.
  destruct valid; [|by exists h].
  rewrite run_bind, (run_get_list h er (effect_rem a))
    by (by eapply lookup_weaken).
  destruct (rem_loop_h_spec pf nf (effect_rem a) Hne h P N Hpf Hnf)
    as (h1 & Hrun1 & Hpf1 & Hnf1 & Hagree1).
  rewrite run_bind, Hrun1.
  assert (hb ⊆ h1) as Hsub1.
  { apply (subseteq_agree_except hb h h1 [pf; nf]); [done|by repeat constructor|].
    intros l Hl. apply Hagree1; intros ->; apply Hl; set_solver. }
  rewrite run_bind, (run_get_list h1 ea (effect_add a))
    by (by eapply lookup_weaken).
  destruct (rem_loop (effect_rem a) (P, N)) as [P1 N1] eqn:Hrem. simpl in *.
  destruct (add_loop_h_spec pf nf (effect_add a) Hne h1 P1 N1 Hpf1 Hnf1)
    as (h2 & Hrun2 & Hpf2 & Hnf2 & Hagree2).
  exists h2. split; [done|]. split; [|done].
  apply (subseteq_agree_except hb h1 h2 [pf; nf]); [done|by repeat constructor|].
  intros l Hl. apply Hagree2; intros ->; apply Hl; set_solver.
Qed.

(** The end of [result]: the working sets become the lists of a new
    structured state, which is encoded. *)
Lemma encode_new_state_spec h pf nf sm m (Pf Nf : gset Expr) :
  h !! pf = Some (OSet Pf) → h !! nf = Some (OSet Nf) →
  h !! sm = Some (OList m) →
  ∃ h', (new_pos ← new_list pf;
         new_neg ← new_list nf;
         new_state ← alloc (OFluentState new_pos new_neg);
         encode_state_h new_state sm) h
        = (h', Some (encode_state (mkFluentState (elements Pf) (elements Nf)) m))
        ∧ h ⊆ h'.
Proof.
  intros Hpf Hnf Hsm.
  destruct (new_list_spec h pf Pf Hpf) as (np & Hnp & Hnp0).
  set (h1 := <[np := OList (elements Pf)]> h) in *.
  assert (h ⊆ h1) as Hsub1 by (by apply insert_subseteq).
  destruct (new_list_spec h1 nf Nf) as (nn & Hnn & Hnn0);
    [by eapply lookup_weaken|].
  set (h2 := <[nn := OList (elements Nf)]> h1) in *.
  assert (h1 ⊆ h2) as Hsub2 by (by apply insert_subseteq).
  destruct (alloc_spec (OFluentState np nn) h2) as (ns & Hns & Hns0).
  set (h3 := <[ns := OFluentState np nn]> h2) in *.
  assert (h2 ⊆ h3) as Hsub3 by (by apply insert_subseteq).
  destruct (encode_state_h_spec h3 ns np nn
              (mkFluentState (elements Pf) (elements Nf)) sm m)
    as (h' & Hrun & Hsub4).
  { by apply lookup_insert_eq. }
  { do 2 (eapply lookup_weaken; [|done]). by apply lookup_insert_eq. }
  { by do 3 (eapply lookup_weaken; [|done]). }
  exists h'. split.
  - by rewrite run_bind, Hnp, run_bind, Hnn, run_bind, Hns.
  - by do 3 (etrans; [done|]).
Qed.

(** Objects that stand for an action or for the problem still do in every
    extension of the store. *)
Lemma rep_action_weaken h h' l a : h ⊆ h' → rep_action h l a → rep_action h' l a.
Proof.
  intros Hsub (pp & pn & ea & er & ? & ? & ? & ? & ?).
  exists pp, pn, ea, er. repeat split; by eapply lookup_weaken.
Qed.

Lemma rep_problem_weaken h h' l p :
  h ⊆ h' → rep_problem h l p → rep_problem h' l p.
Proof.
  intros Hsub (sm & gl & al & acts & ? & ? & ? & ? & Hacts).
  exists sm, gl, al, acts. repeat split; try by eapply lookup_weaken.
  eapply Forall2_impl; [exact Hacts|]. intros x y. by apply rep_action_weaken.
Qed.

(** [result] on the store returns what [result] returns, an exception for
    [None], and leaves every object of the store as it was. *)
Lemma result_h_refines h self_ action_ p a s :
  rep_problem h self_ p → rep_action h action_ a →
  ∃ h', result_h self_ s action_ h = (h', result p s a) ∧ h ⊆ h'.
Proof.
  intros (sm & gl & al & acts & Hself & Hsm & _)
         (pp & pn & ea & er & Hact & Hpp & Hpn & Hea & Her).
  unfold result_h, result.
  rewrite run_bind, (run_get_state_map _ _ _ _ _ Hself).
  destruct (decode_state_h_spec h sm (state_map p) s Hsm) as (h1 & Hsub1 & Hdec).
  rewrite run_bind.
  destruct (decode_state s (state_map p)) as [fs|]; simpl;
    [|exists h1; by rewrite Hdec].
  destruct Hdec as (l & op & on & -> & Hl & Hop & Hon).
  rewrite run_bind, (run_get_fluent_state _ _ _ _ Hl). cbn beta iota.
  destruct (new_set_spec h1 op _ Hop) as (pf & Hpf & Hpf0).
  rewrite run_bind, Hpf. set (h2 := <[pf := _]> h1) in *.
  assert (h1 ⊆ h2) as Hsub2 by (by apply insert_subseteq).
  destruct (new_set_spec h2 on (neg fs)) as (nf & Hnf & Hnf0);
    [by eapply lookup_weaken|].
  rewrite run_bind, Hnf. set (h3 := <[nf := _]> h2) in *.
  assert (h2 ⊆ h3) as Hsub3 by (by apply insert_subseteq).
  assert (h ⊆ h3) as Hsub03 by (transitivity h1; [done|by transitivity h2]).
  assert (pf ≠ nf) as Hne.
  { intros <-. unfold h2 in Hnf0. by rewrite lookup_insert_eq in Hnf0. }
  rewrite run_bind, (run_get_action h3 action_ (name a) (action_args a) pp pn ea er)
    by (by eapply lookup_weaken).
  cbn beta iota.
  assert (h1 ⊆ h3) as Hsub13 by (by transitivity h2).
  destruct (guard_h_spec h3 op on pp pn fs a) as (h4 & Hguard & Hsub4).
  { exact (lookup_weaken _ _ _ _ Hop Hsub13). }
  { exact (lookup_weaken _ _ _ _ Hon Hsub13). }
  { exact (lookup_weaken _ _ _ _ Hpp Hsub03). }
  { exact (lookup_weaken _ _ _ _ Hpn Hsub03). }
  rewrite run_bind, Hguard.
  assert (h3 !! pf = Some (OSet (list_to_set (pos fs)))) as Hpf3.
  { apply (lookup_weaken h2); [by apply lookup_insert_eq|done]. }
  assert (h3 !! nf = Some (OSet (list_to_set (neg fs)))) as Hnf3
    by apply lookup_insert_eq.
  destruct (effects_h_spec h h4 pf nf ea er (guard fs a) a
              (list_to_set (pos fs)) (list_to_set (neg fs)))
    as (h5 & Hrun & Hsub5 & Hpf5 & Hnf5).
  { by transitivity h3. }
  { exact (lookup_weaken_None _ _ _ Hpf0 Hsub1). }
  { apply (lookup_weaken_None h h2); [exact Hnf0|by transitivity h1]. }
  { exact Hne. }
  { exact Hea. }
  { exact Her. }
  { exact (lookup_weaken _ _ _ _ Hpf3 Hsub4). }
  { exact (lookup_weaken _ _ _ _ Hnf3 Hsub4). }
  rewrite run_bind, Hrun.
  destruct (encode_new_state_spec h5 pf nf sm (state_map p) _ _ Hpf5 Hnf5)
    as (h6 & Hrun6 & Hsub6); [by eapply lookup_weaken|].
  exists h6. split; [exact Hrun6|by transitivity h5].
Qed.

(** C8.  [result] is pure and deterministic.  In any store holding the
    problem and the action, a call returns the value of the function
    [result] of the state string and of the action; it leaves every object
    that existed before the call as it was, among them the action and its
    four lists, [state_map] and [actions_list] with its actions; and a second
    call with the same state and action, made in the store the first one
    left, returns the same value. *)
Theorem result_pure h self_ action_ p a s :
  rep_problem h self_ p → rep_action h action_ a →
  ∃ h' h'',
    result_h self_ s action_ h = (h', result p s a)
    ∧ result_h self_ s action_ h' = (h'', result p s a)
    ∧ h ⊆ h'
    ∧ rep_problem h' self_ p
    ∧ rep_action h' action_ a.
Proof.
  intros Hself Hact.
  destruct (result_h_refines h self_ action_ p a s Hself Hact) as (h' & Hrun & Hsub).
  pose proof (rep_problem_weaken _ _ _ _ Hsub Hself) as Hself'.
  pose proof (rep_action_weaken _ _ _ _ Hsub Hact) as Hact'.
  destruct (result_h_refines h' self_ action_ p a s Hself' Hact')
    as (h'' & Hrun' & _).
  by exists h', h''.
Qed.

(** A store laid out for the problem of one cargo, one plane and one
    airport: the problem object at 0, its universe, goal and action list at
    1, 2 and 3, the two ground actions at 4 and 9 with their lists behind. *)
Lemma result_pure_witness :
  let init := mkFluentState [At "C1" "SFO"; At "P1" "SFO"] [In_ "C1" "P1"] in
  let p := AirCargoProblem_init ["C1"] ["P1"] ["SFO"] init [In_ "C1" "P1"] in
  let load := load_action "C1" "P1" "SFO" in
  let unload := unload_action "C1" "P1" "SFO" in
  let h : gmap nat obj :=
    list_to_map
      [(0, OProblem 1 2 3); (1, OList (state_map p)); (2, OList (goal p));
       (3, OActionList [4; 9]);
       (4, OAction (name load) (action_args load) 5 6 7 8);
       (5, OList (precond_pos load)); (6, OList (precond_neg load));
       (7, OList (effect_add load)); (8, OList (effect_rem load));
       (9, OAction (name unload) (action_args unload) 10 11 12 13);
       (10, OList (precond_pos unload)); (11, OList (precond_neg unload));
       (12, OList (effect_add unload)); (13, OList (effect_rem unload))] in
  rep_problem h 0 p
  ∧ rep_action h 4 load
  ∧ ∃ h', result_h 0 (initial_state_TF p) 4 h
          = (h', Some ["F"; "T"; "T"]%char)
          ∧ h ⊆ h'.
Proof.
  intros init p load unload h.
  assert (Hload : rep_action h 4 load).
  { exists 5, 6, 7, 8. repeat split; reflexivity. }
  assert (Hunload : rep_action h 9 unload).
  { exists 10, 11, 12, 13. repeat split; reflexivity. }
  assert (Hp : rep_problem h 0 p).
  { exists 1, 2, 3, [4; 9]. repeat split; try reflexivity.
    repeat constructor; assumption. }
  split; [exact Hp|]. split; [exact Hload|].
  destruct (result_pure h 0 4 p load (initial_state_TF p) Hp Hload)
    as (h' & _ & Hrun & _ & Hsub & _).
  exists h'. split; [exact Hrun|exact Hsub].
Defined.

(** * Further properties of the transition function *)

(** In a well-formed state the negative fluents are the universe fluents
    that are not positive. *)
Lemma decode_state_neg_iff self s fs f :
  wf_state self s → decode_state s (state_map self) = Some fs →
  f ∈ neg fs ↔ f ∈ state_map self ∧ f ∉ pos fs.
Proof.
  intros Hwf Hd. split.
  - intros Hn. split; [by eapply decode_state_neg_universe|].
    intros Hp. exact (decode_state_disjoint self s fs f Hwf Hd Hp Hn).
  - intros [Hm Hp].
    destruct (decode_state_total _ _ _ f (proj1 Hwf) Hd Hm); done.
Qed.

(** A well-formed state is determined by its positive fluents. *)
Lemma wf_state_pos_ext self s1 s2 fs1 fs2 :
  wf_state self s1 → wf_state self s2 →
  decode_state s1 (state_map self) = Some fs1 →
  decode_state s2 (state_map self) = Some fs2 →
  (∀ f, f ∈ state_map self → f ∈ pos fs1 ↔ f ∈ pos fs2) →
  s1 = s2.
Proof.
  intros Hwf1 Hwf2 Hd1 Hd2 Hext.
  rewrite <-(encode_decode_state self s1 fs1 Hwf1 Hd1).
  rewrite <-(encode_decode_state self s2 fs2 Hwf2 Hd2).
  by apply encode_state_ext.
Qed.

(** The successor of a well-formed state: it is well formed, and its
    positive fluents are the universe fluents that the action adds, or that
    were positive and are not deleted, when the sanity check passes; they
    are the positive fluents of the input when it fails. *)
Lemma result_successor self s a fs :
  wf_state self s → decode_state s (state_map self) = Some fs →
  ∃ s' fs',
    result self s a = Some s'
    ∧ wf_state self s'
    ∧ decode_state s' (state_map self) = Some fs'
    ∧ ∀ f, f ∈ pos fs'
           ↔ f ∈ state_map self
             ∧ (if guard fs a
                then f ∈ effect_add a ∨ (f ∈ pos fs ∧ f ∉ effect_rem a)
                else f ∈ pos fs).
Proof.
  intros Hwf Hd. rewrite (result_decoded _ _ _ _ Hd).
  set (X := if guard fs a then _ else _).
  destruct (decode_state_wf self (encode_state X (state_map self)))
    as [fs' Hd']; [apply wf_state_encode|].
  exists (encode_state X (state_map self)), fs'.
  split; [done|]. split; [apply wf_state_encode|]. split; [done|].
  intros f. rewrite (decode_encode_pos _ _ _ _ Hd'). unfold X.
  destruct (guard fs a).
  - by rewrite delete_then_add_pos.
  - simpl. by rewrite elem_of_elements, elem_of_list_to_set.
Qed.

(** When the sanity check fails, [result] returns a well-formed state as
    it is. *)
Lemma result_guard_false_noop self s a fs :
  wf_state self s → decode_state s (state_map self) = Some fs →
  guard fs a = false → result self s a = Some s.
Proof.
  intros Hwf Hd Hg. rewrite (result_guard_false _ _ _ _ Hd Hg).
  f_equal. by apply encode_decode_state.
Qed.

(** Frame.  Whatever the action, a universe fluent that is in neither of
    its effect lists keeps its symbol. *)
Theorem result_frame self s a s' i f :
  wf_state self s →
  result self s a = Some s' →
  state_map self !! i = Some f →
  f ∉ effect_add a → f ∉ effect_rem a →
  s' !! i = s !! i.
Proof.
  intros Hwf Hr Hi Hadd Hrem.
  destruct (decode_state_wf _ _ Hwf) as [fs Hd].
  rewrite (result_decoded _ _ _ _ Hd) in Hr. injection Hr as <-.
  rewrite <-(encode_decode_state self s fs Hwf Hd).
  rewrite !(encode_state_lookup _ _ _ _ Hi). f_equal.
  erewrite bool_decide_ext; [done|]. destruct (guard fs a).
  - rewrite delete_then_add_pos. tauto.
  - simpl. by rewrite elem_of_elements, elem_of_list_to_set.
Qed.

Lemma result_frame_witness :
  let self := air_cargo_p1 in
  let s := initial_state_TF self in
  let a := load_action "C1" "P1" "SFO" in
  let s' := ["F"; "T"; "T"; "T"; "F"; "F"; "F"; "F"; "T"; "F"; "F"; "F"]%char in
  wf_state self s
  ∧ result self s a = Some s'
  ∧ state_map self !! 2 = Some (At "P1" "SFO")
  ∧ (At "P1" "SFO" ∉ effect_add a)
  ∧ (At "P1" "SFO" ∉ effect_rem a)
  ∧ s' !! 2 = s !! 2.
Proof.
  intros self s a s'.
  assert (Hr : result self s a = Some s') by reflexivity.
  assert (Hi : state_map self !! 2 = Some (At "P1" "SFO")) by reflexivity.
  assert (Ha : (At "P1" "SFO") ∉ effect_add a) by (by apply (bool_decide_unpack _)).
  assert (Hd : (At "P1" "SFO") ∉ effect_rem a) by (by apply (bool_decide_unpack _)).
  split; [apply p1_initial_wf|]. split; [exact Hr|]. split; [exact Hi|].
  split; [exact Ha|]. split; [exact Hd|].
  apply (result_frame self s a s' 2 (At "P1" "SFO") p1_initial_wf Hr Hi Ha Hd).
Defined.

(** Applying an action a second time changes nothing: set effects are
    idempotent, and an action the first application made inapplicable is
    skipped. *)
Theorem result_twice self s a s' :
  wf_state self s →
  result self s a = Some s' →
  result self s' a = Some s'.
Proof.
  intros Hwf Hr. destruct (decode_state_wf _ _ Hwf) as [fs Hd].
  destruct (guard fs a) eqn:Hg; cycle 1.
  { rewrite (result_guard_false_noop _ _ _ _ Hwf Hd Hg) in Hr.
    injection Hr as <-. by apply (result_guard_false_noop _ _ _ fs). }
  destruct (result_successor self s a fs Hwf Hd)
    as (s1 & fs1 & Hr1 & Hwf1 & Hd1 & Hpos1).
  rewrite Hr in Hr1. injection Hr1 as <-. rewrite Hg in Hpos1.
  destruct (result_successor self s' a fs1 Hwf1 Hd1)
    as (s2 & fs2 & Hr2 & Hwf2 & Hd2 & Hpos2).
  rewrite Hr2. f_equal.
  apply (wf_state_pos_ext self s2 s' fs2 fs1 Hwf2 Hwf1 Hd2 Hd1).
  intros f Hf. rewrite Hpos2. destruct (guard fs1 a); rewrite ?Hpos1; tauto.
Qed.

Lemma result_twice_witness :
  let self := air_cargo_p1 in
  let s := initial_state_TF self in
  let a := load_action "C1" "P1" "SFO" in
  let s' := ["F"; "T"; "T"; "T"; "F"; "F"; "F"; "F"; "T"; "F"; "F"; "F"]%char in
  wf_state self s ∧ result self s a = Some s' ∧ result self s' a = Some s'.
Proof.
  intros self s a s'.
  assert (Hr : result self s a = Some s') by reflexivity.
  split; [apply p1_initial_wf|]. split; [exact Hr|].
  apply (result_twice self s a s' p1_initial_wf Hr).
Defined.

(** * Further properties of the grounding *)

Lemma elem_of_load_actions cs ps as_ x :
  x ∈ load_actions cs ps as_
  ↔ ∃ c p a, c ∈ cs ∧ p ∈ ps ∧ a ∈ as_ ∧ x = load_action c p a.
Proof.
  unfold load_actions. rewrite list_elem_of_bind.
  setoid_rewrite list_elem_of_bind. setoid_rewrite list_elem_of_bind.
  setoid_rewrite list_elem_of_singleton. naive_solver.
Qed.

Lemma elem_of_unload_actions cs ps as_ x :
  x ∈ unload_actions cs ps as_
  ↔ ∃ c p a, c ∈ cs ∧ p ∈ ps ∧ a ∈ as_ ∧ x = unload_action c p a.
Proof.
  unfold unload_actions. rewrite list_elem_of_bind.
  setoid_rewrite list_elem_of_bind. setoid_rewrite list_elem_of_bind.
  setoid_rewrite list_elem_of_singleton. naive_solver.
Qed.


Lemma elem_of_fly_actions ps as_ x :
  x ∈ fly_actions ps as_
  ↔ ∃ p fr to, p ∈ ps ∧ fr ∈ as_ ∧ to ∈ as_ ∧ fr ≠ to ∧ x = fly_action p fr to.
Proof.
  unfold fly_actions. rewrite list_elem_of_bind. split.
  - intros (fr & (to & Hx & Hto)%list_elem_of_bind & Hfr).
    case_bool_decide as Hne; [|by apply elem_of_nil in Hx].
    apply list_elem_of_bind in Hx as (p & ->%list_elem_of_singleton & Hp).
    by exists p, fr, to.
  - intros (p & fr & to & Hp & Hfr & Hto & Hne & ->).
    exists fr. split; [|done]. apply list_elem_of_bind. exists to. split; [|done].
    rewrite bool_decide_eq_true_2 by done.
    apply list_elem_of_bind. exists p. split; [|done]. by left.
Qed.

Lemma in_get_actions cs ps as_ x :
  x ∈ get_actions cs ps as_
  ↔ (∃ c p a, c ∈ cs ∧ p ∈ ps ∧ a ∈ as_ ∧ x = load_action c p a)
    ∨ (∃ c p a, c ∈ cs ∧ p ∈ ps ∧ a ∈ as_ ∧ x = unload_action c p a)
    ∨ (∃ p fr to, p ∈ ps ∧ fr ∈ as_ ∧ to ∈ as_ ∧ fr ≠ to
                  ∧ x = fly_action p fr to).
Proof.
  unfold get_actions.
  by rewrite !elem_of_app, elem_of_load_actions, elem_of_unload_actions,
    elem_of_fly_actions.
Qed.


Lemma ground_action_fields cs ps as_ x :
  x ∈ get_actions cs ps as_ →
  precond_neg x = []
  ∧ ∃ added deleted,
      effect_add x = [added] ∧ effect_rem x = [deleted]
      ∧ deleted ∈ precond_pos x ∧ added ≠ deleted.
Proof.
  intros [(c & p & a & _ & _ & _ & ->)
         |[(c & p & a & _ & _ & _ & ->)
          |(p & fr & to & _ & _ & _ & Hne & ->)]]%in_get_actions;
    (split; [done|]); simpl; eexists _, _;
    (split; [done|]); (split; [done|]).
  - split; [by left|done].
  - split; [by left|done].
  - split; [by left|]. unfold At. congruence.
Qed.






(** * How [actions] and [result] fit together *)

(** For a ground action the sanity check of [result] is the precondition
    test of [actions]. *)
Lemma ground_guard_check cs ps as_ a fs :
  a ∈ get_actions cs ps as_ →
  guard fs a = check_precond a (tell PropKB_new (pos_sentence fs)).
Proof.
  intros [Hneg _]%ground_action_fields. apply eq_true_iff_eq.
  rewrite guard_true, check_precond_true, Hneg. split; intros [? _]; by split.
Qed.






(** * Actions that undo each other *)

(** An action [b] whose effects mirror those of [a] leads back: when [a] is
    executed and adds a false universe fluent [x] for a true fluent [y],
    and the preconditions of [b] hold after [a], then [b] restores the
    state. *)
Lemma result_inverse self s fs a b x y :
  wf_state self s → decode_state s (state_map self) = Some fs →
  guard fs a = true →
  effect_add a = [x] → effect_rem a = [y] →
  effect_add b = [y] → effect_rem b = [x] → precond_neg b = [] →
  x ∈ state_map self → x ∉ pos fs → y ∈ pos fs →
  (∀ f, f ∈ precond_pos b → f = x ∨ (f ∈ pos fs ∧ f ≠ y)) →
  ∃ s1, result self s a = Some s1 ∧ s1 ≠ s ∧ result self s1 b = Some s.
Proof.
  intros Hwf Hd Hg Hadd Hrem Hadd' Hrem' Hneg Hxm Hx Hy Hpre.
  destruct (result_successor self s a fs Hwf Hd)
    as (s1 & fs1 & Hr1 & Hwf1 & Hd1 & Hpos1).
  rewrite Hg, Hadd, Hrem in Hpos1.
  assert (Hpos1' : ∀ f, f ∈ pos fs1 ↔ f = x ∨ (f ∈ pos fs ∧ f ≠ y)).
  { intros f. rewrite Hpos1, !list_elem_of_singleton. split; [tauto|].
    intros [->|[Hf ?]]; [tauto|]. split; [|tauto].
    exact (decode_state_pos_universe _ _ _ _ Hd Hf). }
  exists s1. split; [done|]. split.
  { intros ->. rewrite Hd in Hd1. injection Hd1 as <-.
    apply Hx, Hpos1'. by left. }
  assert (guard fs1 b = true) as Hg1.
  { apply guard_true. rewrite Hneg. split; [|constructor].
    apply Forall_forall. intros f Hf. apply Hpos1', Hpre, Hf. }
  destruct (result_successor self s1 b fs1 Hwf1 Hd1)
    as (s2 & fs2 & Hr2 & Hwf2 & Hd2 & Hpos2).
  rewrite Hg1, Hadd', Hrem' in Hpos2. rewrite Hr2. f_equal.
  apply (wf_state_pos_ext self s2 s fs2 fs Hwf2 Hwf Hd2 Hd).
  intros f Hf. rewrite Hpos2, !list_elem_of_singleton, Hpos1'. split.
  - intros [_ [->|[[->|[? _]] ?]]]; done.
  - intros Hp. split; [done|].
    destruct (decide (f = y)) as [->|Hne]; [by left|right].
    split; [by right|]. intros ->. done.
Qed.



(** Loading a cargo that was just unloaded restores the state, when the
    fluent At(c, a) is a universe fluent that was false. *)
Theorem load_undoes_unload self s fs c p a :
  wf_state self s → decode_state s (state_map self) = Some fs →
  holds fs (In_ c p) → holds fs (At p a) →
  At c a ∈ state_map self → ¬ holds fs (At c a) →
  ∃ s1, result self s (unload_action c p a) = Some s1
        ∧ s1 ≠ s
        ∧ result self s1 (load_action c p a) = Some s.
Proof.
  intros Hwf Hd Hc Hp Hm Hin.
  apply (result_inverse self s fs _ _ (At c a) (In_ c p)); try done.
  - apply guard_true. split; [|constructor]. by repeat constructor.
  - simpl. intros f [->|[->|?%elem_of_nil]%elem_of_cons]%elem_of_cons;
      [by left| |done].
    right. split; [done|]. unfold At, In_. congruence.
Qed.

Lemma load_undoes_unload_witness :
  let self := air_cargo_p1 in
  let s := ["F"; "T"; "T"; "T"; "F"; "F"; "F"; "F"; "T"; "F"; "F"; "F"]%char in
  let fs := mkFluentState
              [At "C2" "JFK"; At "P1" "SFO"; At "P2" "JFK"; In_ "C1" "P1"]
              [At "C1" "SFO"; At "C2" "SFO"; In_ "C2" "P1"; In_ "C2" "P2";
               At "C1" "JFK"; In_ "C1" "P2"; At "P1" "JFK"; At "P2" "SFO"] in
  wf_state self s ∧ decode_state s (state_map self) = Some fs
  ∧ holds fs (In_ "C1" "P1") ∧ holds fs (At "P1" "SFO")
  ∧ At "C1" "SFO" ∈ state_map self ∧ ¬ holds fs (At "C1" "SFO")
  ∧ ∃ s1, result self s (unload_action "C1" "P1" "SFO") = Some s1
          ∧ s1 ≠ s
          ∧ result self s1 (load_action "C1" "P1" "SFO") = Some s.
Proof.
  intros self s fs.
  assert (Hwf : wf_state self s).
  { apply wf_state_NoDup; [apply p1_state_map_NoDup|reflexivity|].
    by apply (bool_decide_unpack _). }
  assert (Hd : decode_state s (state_map self) = Some fs) by reflexivity.
  assert (H1 : holds fs (In_ "C1" "P1")) by (by apply (bool_decide_unpack _)).
  assert (H2 : holds fs (At "P1" "SFO")) by (by apply (bool_decide_unpack _)).
  assert (H4 : At "C1" "SFO" ∈ state_map self) by (by apply (bool_decide_unpack _)).
  assert (H5 : ¬ holds fs (At "C1" "SFO")) by (by apply (bool_decide_unpack _)).
  split; [exact Hwf|]. split; [exact Hd|].
  split; [exact H1|]. split; [exact H2|].
  split; [exact H4|]. split; [exact H5|].
  apply (load_undoes_unload self s fs "C1" "P1" "SFO" Hwf Hd H1 H2 H4 H5).
Defined.

(** Flying back restores the state: Fly(p, fr, to) then Fly(p, to, fr) is
    the identity, when the plane is at [fr] and the fluent At(p, to) is a
    universe fluent that was false. *)
Theorem fly_back_restores self s fs p fr to :
  wf_state self s → decode_state s (state_map self) = Some fs →
  holds fs (At p fr) →
  At p to ∈ state_map self → ¬ holds fs (At p to) →
  ∃ s1, result self s (fly_action p fr to) = Some s1
        ∧ s1 ≠ s
        ∧ result self s1 (fly_action p to fr) = Some s.
Proof.
  intros Hwf Hd Hp Hm Hin.
  apply (result_inverse self s fs _ _ (At p to) (At p fr)); try done.
  - apply guard_true. split; [|constructor]. by repeat constructor.
  - simpl. intros f ->%list_elem_of_singleton. by left.
Qed.

Lemma fly_back_restores_witness :
  let self := air_cargo_p1 in
  let s := initial_state_TF self in
  let fs := mkFluentState
              [At "C1" "SFO"; At "C2" "JFK"; At "P1" "SFO"; At "P2" "JFK"]
              [At "C2" "SFO"; In_ "C2" "P1"; In_ "C2" "P2"; At "C1" "JFK";
               In_ "C1" "P1"; In_ "C1" "P2"; At "P1" "JFK"; At "P2" "SFO"] in
  wf_state self s ∧ decode_state s (state_map self) = Some fs
  ∧ holds fs (At "P1" "SFO")
  ∧ At "P1" "JFK" ∈ state_map self ∧ ¬ holds fs (At "P1" "JFK")
  ∧ ∃ s1, result self s (fly_action "P1" "SFO" "JFK") = Some s1
          ∧ s1 ≠ s
          ∧ result self s1 (fly_action "P1" "JFK" "SFO") = Some s.
Proof.
  intros self s fs.
  assert (H1 : holds fs (At "P1" "SFO")) by (by apply (bool_decide_unpack _)).
  assert (H4 : At "P1" "JFK" ∈ state_map self) by (by apply (bool_decide_unpack _)).
  assert (H5 : ¬ holds fs (At "P1" "JFK")) by (by apply (bool_decide_unpack _)).
  split; [apply p1_initial_wf|]. split; [apply p1_initial_decoded|].
  split; [exact H1|]. split; [exact H4|]. split; [exact H5|].
  apply (fly_back_restores self s fs "P1" "SFO" "JFK" p1_initial_wf
           p1_initial_decoded H1 H4 H5).
Defined.

(** * Further properties of the ignore-preconditions heuristic *)

(** The comprehension raises exactly when a goal fluent of the universe
    sits at an index the state does not have. *)
Lemma unmet_goals_None self node fluents i :
  unmet_goals self node i fluents = None
  ↔ ∃ j f, fluents !! j = Some f ∧ f ∈ goal self
           ∧ length (state node) ≤ i + j.
Proof.
  revert i. induction fluents as [|g fluents IH]; intros i; simpl.
  - split; [done|]. by intros (j & f & ? & _).
  - case_bool_decide as Hg.
    + destruct (state node !! i) as [c|] eqn:Hc; simpl.
      * destruct (unmet_goals self node (S i) fluents) as [L|] eqn:HL; simpl.
        -- split; [done|]. intros ([|j] & f & Hj & Hf & Hlen).
           ++ apply lookup_lt_Some in Hc. lia.
           ++ assert (unmet_goals self node (S i) fluents = None) as Habs.
              { apply IH. exists j, f. split; [done|]. split; [done|lia]. }
              congruence.
        -- split; [|done]. intros _.
           apply IH in HL as (j & f & Hj & Hf & Hlen).
           exists (S j), f. split; [done|]. split; [done|lia].
      * split; [|done]. intros _. exists 0, g. split; [done|]. split; [done|].
        apply lookup_ge_None in Hc. lia.
    + split.
      * intros (j & f & Hj & Hf & Hlen)%IH.
        exists (S j), f. split; [done|]. split; [done|lia].
      * intros ([|j] & f & Hj & Hf & Hlen); [by simplify_eq/=|].
        apply IH. exists j, f. split; [done|]. split; [done|lia].
Qed.

(** [h_ignore_preconditions] raises exactly when a goal fluent of the
    universe sits at an index beyond the end of the state; a state that is
    too short is harmless as long as no goal fluent is out of its reach. *)
Theorem h_ignore_preconditions_raises self node :
  h_ignore_preconditions self node = None
  ↔ ∃ i f, state_map self !! i = Some f ∧ f ∈ goal self
           ∧ length (state node) ≤ i.
Proof.
  unfold h_ignore_preconditions.
  destruct (unmet_goals self node 0 (state_map self)) as [L|] eqn:HL; simpl.
  - split; [done|]. intros Hex.
    assert (None = Some L) as Habs; [|done].
    rewrite <-HL. symmetry. by apply unmet_goals_None.
  - split; [|done]. intros _. by apply unmet_goals_None in HL.
Qed.

(** At a well-formed state, with the goal fluents in the universe, the
    heuristic is 0 exactly when the goal test passes. *)
Theorem h_ignore_preconditions_zero_iff_goal self s :
  wf_state self s →
  Forall (λ g, g ∈ state_map self) (goal self) →
  h_ignore_preconditions self (mkNode s) = Some 0
  ↔ goal_test self s = Some true.
Proof.
  intros Hwf Hgoal. destruct (decode_state_wf _ _ Hwf) as [fs Hd].
  split.
  - intros Hh. unfold goal_test. rewrite Hd. simpl. f_equal.
    apply goal_loop_true, Forall_forall. intros g Hg.
    rewrite Forall_forall in Hgoal.
    destruct (decode_state_total _ _ _ g (proj1 Hwf) Hd (Hgoal g Hg))
      as [|Hneg]; [done|]. exfalso.
    apply (decode_state_neg_F _ _ _ _ Hwf Hd) in Hneg as (j & Hj & Hs).
    destruct (unmet_goals_spec self (mkNode s) (state_map self) 0)
      as (L & HL & _ & Hin); [simpl; destruct Hwf; lia|].
    unfold h_ignore_preconditions in Hh. rewrite HL in Hh. simpl in Hh.
    injection Hh as Hlen. destruct L; [|done].
    eapply elem_of_nil, Hin. eauto.
  - intros (fs' & Hd' & Hholds)%goal_test_true.
    by apply (h_ignore_preconditions_goal self s fs').
Qed.

Lemma h_ignore_preconditions_zero_iff_goal_witness :
  let s := ["F"; "T"; "T"; "T"; "T"; "F"; "F"; "T"; "F"; "F"; "F"; "F"]%char in
  wf_state air_cargo_p1 s
  ∧ Forall (λ g, g ∈ state_map air_cargo_p1) (goal air_cargo_p1)
  ∧ h_ignore_preconditions air_cargo_p1 (mkNode s) = Some 0.
Proof.
  intros s.
  assert (Hwf : wf_state air_cargo_p1 s).
  { apply wf_state_NoDup; [apply p1_state_map_NoDup|reflexivity|].
    by apply (bool_decide_unpack _). }
  split; [exact Hwf|]. split; [apply p1_goal_in_universe|].
  apply (h_ignore_preconditions_zero_iff_goal air_cargo_p1 s Hwf
           p1_goal_in_universe).
  reflexivity.
Defined.

Lemma size_union_le (X Y : gset Expr) : size (X ∪ Y) ≤ size X + size Y.
Proof.
  rewrite size_union_alt.
  assert (size (Y ∖ X) ≤ size Y) by (apply subseteq_size; set_solver). lia.
Qed.

Lemma size_list_to_set_le (l : list Expr) :
  size (list_to_set l : gset Expr) ≤ length l.
Proof.
  induction l as [|x l IH].
  - by rewrite list_to_set_nil, size_empty.
  - rewrite list_to_set_cons. simpl.
    pose proof (size_union_le {[x]} (list_to_set l)) as Hle.
    rewrite size_singleton in Hle. lia.
Qed.

(** Over a universe free of duplicates the heuristic of a well-formed
    state is the number of goal fluents in its negative list. *)
Lemma h_ignore_preconditions_size self s fs :
  wf_state self s → NoDup (state_map self) →
  decode_state s (state_map self) = Some fs →
  h_ignore_preconditions self (mkNode s)
  = Some (size (filter (fails fs) (list_to_set (goal self) : gset Expr))).
Proof.
  intros Hwf Hnd Hd.
  destruct (unmet_goals_spec self (mkNode s) (state_map self) 0)
    as (L & HL & Hsub & Hin); [simpl; destruct Hwf; lia|].
  unfold h_ignore_preconditions. rewrite HL. simpl. f_equal.
  rewrite <-(size_list_to_set (C:=gset Expr) L)
    by (eapply sublist_NoDup; eauto).
  f_equal. apply set_eq. intros g.
  rewrite elem_of_list_to_set, elem_of_filter, elem_of_list_to_set, Hin.
  unfold fails. rewrite (decode_state_neg_F _ _ _ _ Hwf Hd). simpl.
  split; [intros (j & ? & ? & ?)|intros [(j & ? & ?) ?]]; eauto 6.
Qed.

Lemma h_ignore_step self s a s' :
  wf_state self s → NoDup (state_map self) →
  result self s a = Some s' →
  ∃ n n',
    h_ignore_preconditions self (mkNode s) = Some n
    ∧ h_ignore_preconditions self (mkNode s') = Some n'
    ∧ n ≤ n' + length (effect_add a)
    ∧ n' ≤ n + length (effect_rem a).
Proof.
  intros Hwf Hnd Hr. destruct (decode_state_wf _ _ Hwf) as [fs Hd].
  destruct (result_successor self s a fs Hwf Hd)
    as (s1 & fs' & Hr1 & Hwf' & Hd' & Hpos).
  rewrite Hr in Hr1. injection Hr1 as <-.
  rewrite (h_ignore_preconditions_size self s fs Hwf Hnd Hd).
  rewrite (h_ignore_preconditions_size self s' fs' Hwf' Hnd Hd').
  eexists _, _. split; [done|]. split; [done|].
  set (G := list_to_set (goal self) : gset Expr).
  assert (Hneg : ∀ f, fails fs f ↔ f ∈ state_map self ∧ f ∉ pos fs)
    by (intros f; by apply (decode_state_neg_iff self s)).
  assert (Hneg' : ∀ f, fails fs' f ↔ f ∈ state_map self ∧ f ∉ pos fs')
    by (intros f; by apply (decode_state_neg_iff self s')).
  split.
  - pose proof (size_list_to_set_le (effect_add a)) as Hle.
    pose proof (size_union_le (filter (fails fs') G) (list_to_set (effect_add a)))
      as Hun.
    assert (filter (fails fs) G
            ⊆ filter (fails fs') G ∪ list_to_set (effect_add a)) as Hsub.
    { intros g [Hf HG]%elem_of_filter. apply Hneg in Hf as [Hm Hp].
      destruct (decide (g ∈ effect_add a)) as [Hadd|Hadd].
      - apply elem_of_union_r. by apply elem_of_list_to_set.
      - apply elem_of_union_l, elem_of_filter. split; [|done].
        apply Hneg'. split; [done|]. rewrite Hpos.
        destruct (guard fs a); tauto. }
    apply subseteq_size in Hsub. lia.
  - pose proof (size_list_to_set_le (effect_rem a)) as Hle.
    pose proof (size_union_le (filter (fails fs) G) (list_to_set (effect_rem a)))
      as Hun.
    assert (filter (fails fs') G
            ⊆ filter (fails fs) G ∪ list_to_set (effect_rem a)) as Hsub.
    { intros g [Hf HG]%elem_of_filter. apply Hneg' in Hf as [Hm Hp].
      destruct (decide (g ∈ effect_rem a)) as [Hrem|Hrem].
      - apply elem_of_union_r. by apply elem_of_list_to_set.
      - apply elem_of_union_l, elem_of_filter. split; [|done].
        apply Hneg. split; [done|]. intros Hp'. apply Hp, Hpos.
        split; [done|]. destruct (guard fs a); tauto. }
    apply subseteq_size in Hsub. lia.
Qed.

(** One step changes the heuristic by no more than the number of effects:
    over a universe free of duplicates, the value before an action is at
    most the value after it plus the number of its add effects, and the
    value after it is at most the value before plus the number of its
    delete effects. *)
Theorem h_ignore_preconditions_step self s a s' :
  wf_state self s → NoDup (state_map self) →
  result self s a = Some s' →
  ∃ n n',
    h_ignore_preconditions self (mkNode s) = Some n
    ∧ h_ignore_preconditions self (mkNode s') = Some n'
    ∧ n ≤ n' + length (effect_add a)
    ∧ n' ≤ n + length (effect_rem a).
Proof.
  intros Hwf Hnd Hr.
  destruct (h_ignore_step self s a s' Hwf Hnd Hr) as (n & n' & Hn & Hn' & Hle).
  exists n, n'. split; [exact Hn|]. split; [exact Hn'|exact Hle].
Qed.

Lemma h_ignore_preconditions_step_witness :
  let self := air_cargo_p1 in
  let s := initial_state_TF self in
  let a := load_action "C1" "P1" "SFO" in
  let s' := ["F"; "T"; "T"; "T"; "F"; "F"; "F"; "F"; "T"; "F"; "F"; "F"]%char in
  wf_state self s ∧ NoDup (state_map self) ∧ result self s a = Some s'
  ∧ ∃ n n', h_ignore_preconditions self (mkNode s) = Some n
            ∧ h_ignore_preconditions self (mkNode s') = Some n'
            ∧ n ≤ n' + 1.
Proof.
  intros self s a s'.
  assert (Hr : result self s a = Some s') by reflexivity.
  split; [apply p1_initial_wf|]. split; [apply p1_state_map_NoDup|].
  split; [exact Hr|].
  destruct (h_ignore_preconditions_step self s a s' p1_initial_wf
              p1_state_map_NoDup Hr) as (n & n' & Hn & Hn' & Hle & _).
  exists n, n'. split; [exact Hn|]. split; [exact Hn'|exact Hle].
Defined.

(** * The invariant of the domain *)

Lemma At_eq x y x' y' : At x y = At x' y' ↔ x = x' ∧ y = y'.
Proof. unfold At. split; [by intros [= -> ->]|by intros [-> ->]]. Qed.

Lemma In_eq x y x' y' : In_ x y = In_ x' y' ↔ x = x' ∧ y = y'.
Proof. unfold In_. split; [by intros [= -> ->]|by intros [-> ->]]. Qed.

Lemma At_neq_In x y x' y' : At x y ≠ In_ x' y'.
Proof. done. Qed.

Lemma In_neq_At x y x' y' : In_ x y ≠ At x' y'.
Proof. done. Qed.

(** Flying a plane keeps every plane and every cargo located. *)
Lemma fly_keeps_located self fs fs' p0 fr to :
  (∀ x, x ∈ cargos self → x ∉ planes self) →
  p0 ∈ planes self → to ∈ airports self →
  holds fs (At p0 fr) →
  (∀ f, holds fs' f ↔ f = At p0 to ∨ (holds fs f ∧ f ≠ At p0 fr)) →
  planes_located self fs ∧ cargos_located self fs →
  planes_located self fs' ∧ cargos_located self fs'.
Proof.
  intros Hdisj Hp0 Hto Hfr Hpos [Hplanes Hcargos]. split.
  - intros p Hp. destruct (Hplanes p Hp) as (a & Ha & Hat & Huniq).
    destruct (decide (p = p0)) as [->|Hne].
    + exists to. split; [done|]. split; [apply Hpos; by left|].
      intros a' [Heq|[Hold Hne]]%Hpos.
      * by apply At_eq in Heq as [_ ->].
      * exfalso. apply Hne. by rewrite (Huniq a' Hold), (Huniq fr Hfr).
    + exists a. split; [done|]. split.
      * apply Hpos. right. split; [done|]. rewrite At_eq. tauto.
      * intros a' [Heq|[Hold _]]%Hpos; [|by apply Huniq].
        apply At_eq in Heq as [-> _]. done.
  - intros c Hc. assert (c ≠ p0) as Hne by (intros ->; by apply (Hdisj p0)).
    destruct (Hcargos c Hc) as [(a & Ha & Hat & Huniq & Hno)
                               |(p & Hp & Hin & Huniq & Hno)].
    + left. exists a. split; [done|]. split; [|split].
      * apply Hpos. right. split; [done|]. rewrite At_eq. tauto.
      * intros a' [Heq|[Hold _]]%Hpos; [|by apply Huniq].
        apply At_eq in Heq as [-> _]. done.
      * intros p [Heq|[Hold _]]%Hpos; [done|]. by apply (Hno p).
    + right. exists p. split; [done|]. split; [|split].
      * apply Hpos. right. split; [done|]. done.
      * intros p' [Heq|[Hold _]]%Hpos; [done|]. by apply Huniq.
      * intros a [Heq|[Hold _]]%Hpos; [|by apply (Hno a)].
        apply At_eq in Heq as [-> _]. done.
Qed.

(** Loading a cargo keeps every plane and every cargo located. *)
Lemma load_keeps_located self fs fs' c0 p0 a0 :
  (∀ x, x ∈ cargos self → x ∉ planes self) →
  c0 ∈ cargos self → p0 ∈ planes self →
  holds fs (At c0 a0) →
  (∀ f, holds fs' f ↔ f = In_ c0 p0 ∨ (holds fs f ∧ f ≠ At c0 a0)) →
  planes_located self fs ∧ cargos_located self fs →
  planes_located self fs' ∧ cargos_located self fs'.
Proof.
  intros Hdisj Hc0 Hp0 Hat0 Hpos [Hplanes Hcargos]. split.
  - intros p Hp. assert (p ≠ c0) as Hne by (intros ->; by apply (Hdisj c0)).
    destruct (Hplanes p Hp) as (a & Ha & Hat & Huniq).
    exists a. split; [done|]. split.
    + apply Hpos. right. split; [done|]. rewrite At_eq. tauto.
    + intros a' [Heq|[Hold _]]%Hpos; [done|]. by apply Huniq.
  - intros c Hc. destruct (decide (c = c0)) as [->|Hne].
    + destruct (Hcargos c0 Hc) as [(a & Ha & Hat & Huniq & Hno)
                                  |(p & Hp & Hin & Huniq & Hno)];
        [|by destruct (Hno a0)].
      right. exists p0. split; [done|]. split; [|split].
      * apply Hpos. by left.
      * intros p' [Heq|[Hold _]]%Hpos; [|by destruct (Hno p')].
        by apply In_eq in Heq as [_ ->].
      * intros a' [Heq|[Hold Hne]]%Hpos; [done|].
        apply Hne. by rewrite (Huniq a' Hold), (Huniq a0 Hat0).
    + destruct (Hcargos c Hc) as [(a & Ha & Hat & Huniq & Hno)
                                 |(p & Hp & Hin & Huniq & Hno)].
      * left. exists a. split; [done|]. split; [|split].
        -- apply Hpos. right. split; [done|]. rewrite At_eq. tauto.
        -- intros a' [Heq|[Hold _]]%Hpos; [done|]. by apply Huniq.
        -- intros p [Heq|[Hold _]]%Hpos; [|by apply (Hno p)].
           apply In_eq in Heq as [-> _]. done.
      * right. exists p. split; [done|]. split; [|split].
        -- apply Hpos. right. split; [done|]. done.
        -- intros p' [Heq|[Hold _]]%Hpos; [|by apply Huniq].
           apply In_eq in Heq as [-> _]. done.
        -- intros a [Heq|[Hold _]]%Hpos; [done|]. by apply (Hno a).
Qed.

(** Unloading a cargo keeps every plane and every cargo located. *)
Lemma unload_keeps_located self fs fs' c0 p0 a0 :
  (∀ x, x ∈ cargos self → x ∉ planes self) →
  c0 ∈ cargos self → a0 ∈ airports self →
  holds fs (In_ c0 p0) →
  (∀ f, holds fs' f ↔ f = At c0 a0 ∨ (holds fs f ∧ f ≠ In_ c0 p0)) →
  planes_located self fs ∧ cargos_located self fs →
  planes_located self fs' ∧ cargos_located self fs'.
Proof.
  intros Hdisj Hc0 Ha0 Hin0 Hpos [Hplanes Hcargos]. split.
  - intros p Hp. assert (p ≠ c0) as Hne by (intros ->; by apply (Hdisj c0)).
    destruct (Hplanes p Hp) as (a & Ha & Hat & Huniq).
    exists a. split; [done|]. split.
    + apply Hpos. right. split; [done|]. done.
    + intros a' [Heq|[Hold _]]%Hpos; [|by apply Huniq].
      apply At_eq in Heq as [-> _]. done.
  - intros c Hc. destruct (decide (c = c0)) as [->|Hne].
    + destruct (Hcargos c0 Hc) as [(a & Ha & Hat & Huniq & Hno)
                                  |(p & Hp & Hin & Huniq & Hno)];
        [by destruct (Hno p0)|].
      left. exists a0. split; [done|]. split; [|split].
      * apply Hpos. by left.
      * intros a' [Heq|[Hold _]]%Hpos; [|by destruct (Hno a')].
        by apply At_eq in Heq as [_ ->].
      * intros p' [Heq|[Hold Hne]]%Hpos; [done|].
        apply Hne. by rewrite (Huniq p' Hold), (Huniq p0 Hin0).
    + destruct (Hcargos c Hc) as [(a & Ha & Hat & Huniq & Hno)
                                 |(p & Hp & Hin & Huniq & Hno)].
      * left. exists a. split; [done|]. split; [|split].
        -- apply Hpos. right. split; [done|]. done.
        -- intros a' [Heq|[Hold _]]%Hpos; [|by apply Huniq].
           apply At_eq in Heq as [-> _]. done.
        -- intros p [Heq|[Hold _]]%Hpos; [done|]. by apply (Hno p).
      * right. exists p. split; [done|]. split; [|split].
        -- apply Hpos. right. split; [done|]. rewrite In_eq. tauto.
        -- intros p' [Heq|[Hold _]]%Hpos; [done|]. by apply Huniq.
        -- intros a [Heq|[Hold _]]%Hpos; [|by apply (Hno a)].
           apply At_eq in Heq as [-> _]. done.
Qed.

Lemma located_ext self fs fs' :
  (∀ f, holds fs f ↔ holds fs' f) →
  planes_located self fs ∧ cargos_located self fs →
  planes_located self fs' ∧ cargos_located self fs'.
Proof.
  intros Hext [Hplanes Hcargos]. split.
  - intros p Hp. destruct (Hplanes p Hp) as (a & Ha & Hat & Huniq).
    exists a. split; [done|]. split; [by apply Hext|].
    intros a' Ha'. by apply Huniq, Hext.
  - intros c Hc.
    destruct (Hcargos c Hc) as [(a & Ha & Hat & Huniq & Hno)
                               |(p & Hp & Hin & Huniq & Hno)].
    + left. exists a. split; [done|]. split; [by apply Hext|]. split.
      * intros a' Ha'. by apply Huniq, Hext.
      * intros p Hp. by apply (Hno p), Hext.
    + right. exists p. split; [done|]. split; [by apply Hext|]. split.
      * intros p' Hp'. by apply Huniq, Hext.
      * intros a Ha. by apply (Hno a), Hext.
Qed.

(** The successor of a state by a ground action that [actions] lists, over
    a universe that holds the fluent added: the fluents that hold are the
    one added and those that held, the one deleted apart. *)
Lemma ground_successor self cs ps as_ s fs acts a s' :
  wf_state self s → decode_state s (state_map self) = Some fs →
  actions self s = Some acts → a ∈ acts →
  a ∈ get_actions cs ps as_ →
  Forall (λ f, f ∈ state_map self) (effect_add a) →
  result self s a = Some s' →
  wf_state self s'
  ∧ Forall (holds fs) (precond_pos a)
  ∧ ∃ fs', decode_state s' (state_map self) = Some fs'
           ∧ ∀ f, holds fs' f
                  ↔ f ∈ effect_add a ∨ (holds fs f ∧ f ∉ effect_rem a).
Proof.
  intros Hwf Hd Hacts Ha Hground Hadd Hr.
  unfold actions in Hacts. rewrite Hd in Hacts. simpl in Hacts.
  injection Hacts as <-.
  apply list_elem_of_filter in Ha as [[Hpre _]%check_precond_true _].
  destruct (ground_action_fields _ _ _ _ Hground) as [Hneg _].
  assert (guard fs a = true) as Hg.
  { apply guard_true. split; [done|]. rewrite Hneg. constructor. }
  destruct (result_successor self s a fs Hwf Hd)
    as (s1 & fs' & Hr1 & Hwf' & Hd' & Hpos).
  rewrite Hr in Hr1. injection Hr1 as <-. rewrite Hg in Hpos.
  split; [done|]. split; [done|]. exists fs'. split; [done|].
  intros f. unfold holds. rewrite Hpos. split; [tauto|].
  intros [Hf|[Hf Hnr]]; (split; [|tauto]).
  - rewrite Forall_forall in Hadd. by apply Hadd.
  - exact (decode_state_pos_universe _ _ _ _ Hd Hf).
Qed.

Lemma located_invariant cs ps as_ initial goal_ s :
  let self := AirCargoProblem_init cs ps as_ initial goal_ in
  (∀ x, x ∈ cs → x ∉ ps) →
  closed_universe self →
  planes_located self initial → cargos_located self initial →
  reachable self s →
  wf_state self s
  ∧ ∃ fs, decode_state s (state_map self) = Some fs
          ∧ planes_located self fs ∧ cargos_located self fs.
Proof.
  intros self Hdisj (_ & Hclosed & _) Hplanes Hcargos Hreach.
  induction Hreach as [|s acts a s' _ (Hwf & fs & Hd & Hinv) Hacts Ha Hr].
  - split; [apply wf_state_encode|].
    destruct (decode_state_wf self (initial_state_TF self))
      as [fs Hd]; [apply wf_state_encode|].
    exists fs. split; [done|].
    apply (located_ext self initial fs); [|done].
    intros f. unfold holds. rewrite (decode_encode_pos _ _ _ _ Hd).
    split; [|tauto]. intros Hf. split; [|done]. simpl.
    apply elem_of_app. by left.
  - assert (a ∈ get_actions cs ps as_) as Hground.
    { unfold actions in Hacts. rewrite Hd in Hacts. simpl in Hacts.
      injection Hacts as <-. by apply list_elem_of_filter in Ha as [_ Ha]. }
    assert (Forall (λ f, f ∈ state_map self) (effect_add a)) as Hadd.
    { rewrite Forall_forall in Hclosed. specialize (Hclosed a Hground).
      unfold action_literals in Hclosed.
      by apply Forall_app in Hclosed as [_ [_ [? _]%Forall_app]%Forall_app]. }
    destruct (ground_successor self cs ps as_ s fs acts a s'
                Hwf Hd Hacts Ha Hground Hadd Hr)
      as (Hwf' & Hpre & fs' & Hd' & Hpos).
    split; [done|]. exists fs'. split; [done|].
    apply in_get_actions in Hground
      as [(c & p & ap & Hc & Hp & Hap & ->)
         |[(c & p & ap & Hc & Hp & Hap & ->)
          |(p & fr & to & Hp & Hfr & Hto & Hne & ->)]]; simpl in *.
    + apply (load_keeps_located self fs fs' c p ap); try done.
      * by apply Forall_cons in Hpre as [? _].
      * intros f. rewrite Hpos, !list_elem_of_singleton. done.
    + apply (unload_keeps_located self fs fs' c p ap); try done.
      * by apply Forall_cons in Hpre as [? _].
      * intros f. rewrite Hpos, !list_elem_of_singleton. done.
    + apply (fly_keeps_located self fs fs' p fr to); try done.
      * by apply Forall_cons in Hpre as [? _].
      * intros f. rewrite Hpos, !list_elem_of_singleton. done.
Qed.


(** Searching a list for a fluent, and a located initial state. *)
Ltac find_elem :=
  solve [repeat first [apply list_elem_of_here | apply list_elem_of_further]].

Ltac only_elem H :=
  unfold holds in H; simpl in H; unfold At, In_ in *;
  repeat (apply elem_of_cons in H as [H|H]; [by simplify_eq|]);
  by apply elem_of_nil in H.

Ltac located_initial :=
  split;
  [ intros p Hp; simpl in Hp;
    repeat (apply elem_of_cons in Hp as [->|Hp]);
    [ (eexists; split; [|split];
       [ | unfold holds; simpl; find_elem | ];
       [ simpl; find_elem | intros a' Ha'; only_elem Ha' ]) ..
    | by apply elem_of_nil in Hp ]
  | intros c Hc; simpl in Hc;
    repeat (apply elem_of_cons in Hc as [->|Hc]);
    [ (left; eexists; split; [|split; [|split]];
       [ | unfold holds; simpl; find_elem | | ];
       [ simpl; find_elem
       | intros a' Ha'; only_elem Ha'
       | intros p' Hp'; only_elem Hp' ]) ..
    | by apply elem_of_nil in Hc ] ].

Lemma p1_initial_located :
  let initial := mkFluentState
      [At "C1" "SFO"; At "C2" "JFK"; At "P1" "SFO"; At "P2" "JFK"]
      [At "C2" "SFO"; In_ "C2" "P1"; In_ "C2" "P2"; At "C1" "JFK";
       In_ "C1" "P1"; In_ "C1" "P2"; At "P1" "JFK"; At "P2" "SFO"] in
  planes_located air_cargo_p1 initial ∧ cargos_located air_cargo_p1 initial.
Proof. intros initial. located_initial. Defined.

Lemma p1_closed_universe : closed_universe air_cargo_p1.
Proof. apply (bool_decide_unpack _). vm_compute. exact I. Defined.

Lemma p1_names_disjoint x : x ∈ ["C1"; "C2"] → x ∉ ["P1"; "P2"].
Proof.
  intros Hx. repeat (apply elem_of_cons in Hx as [->|Hx]);
    [by apply (bool_decide_unpack _)..|by apply elem_of_nil in Hx].
Defined.

Lemma p1_loaded_reachable :
  reachable air_cargo_p1
    ["F"; "T"; "T"; "T"; "F"; "F"; "F"; "F"; "T"; "F"; "F"; "F"]%char.
Proof.
  eapply (reachable_result air_cargo_p1 (initial_state_TF air_cargo_p1) _
            (load_action "C1" "P1" "SFO")).
  - apply reachable_initial.
  - vm_compute. reflexivity.
  - find_elem.
  - vm_compute. reflexivity.
Defined.


(** * The instances *)

Lemma p2_initial_located :
  let initial := mkFluentState
      [At "C1" "SFO"; At "C2" "JFK"; At "C3" "ATL";
       At "P1" "SFO"; At "P2" "JFK"; At "P3" "ATL"]
      [At "C2" "SFO"; At "C2" "ATL";
       In_ "C2" "P1"; In_ "C2" "P2"; In_ "C2" "P3";
       At "C1" "JFK"; At "C1" "ATL";
       In_ "C1" "P1"; In_ "C1" "P2"; In_ "C1" "P3";
       At "C3" "JFK"; At "C3" "SFO";
       In_ "C3" "P1"; In_ "C3" "P2"; In_ "C3" "P3";
       At "P1" "JFK"; At "P1" "ATL";
       At "P2" "SFO"; At "P2" "ATL";
       At "P3" "SFO"; At "P3" "JFK"] in
  planes_located air_cargo_p2 initial ∧ cargos_located air_cargo_p2 initial.
Proof. intros initial. located_initial. Qed.

Lemma p3_initial_located :
  let initial := mkFluentState
      [At "C1" "SFO"; At "C2" "JFK"; At "C3" "ATL"; At "C4" "ORD";
       At "P1" "SFO"; At "P2" "JFK"]
      [At "C2" "SFO"; At "C2" "ATL"; At "C2" "ORD";
       In_ "C2" "P1"; In_ "C2" "P2";
       At "C1" "JFK"; At "C1" "ATL"; At "C1" "ORD";
       In_ "C1" "P1"; In_ "C1" "P2";
       At "C3" "JFK"; At "C3" "SFO"; At "C3" "ORD";
       In_ "C3" "P1"; In_ "C3" "P2";
       At "C4" "JFK"; At "C4" "ATL"; At "C4" "SFO";
       In_ "C4" "P1"; In_ "C4" "P2";
       At "P1" "JFK"; At "P1" "ATL"; At "P1" "ORD";
       At "P2" "SFO"; At "P2" "ATL"; At "P2" "ORD"] in
  planes_located air_cargo_p3 initial ∧ cargos_located air_cargo_p3 initial.
Proof. intros initial. located_initial. Qed.

Lemma p2_closed_universe : closed_universe air_cargo_p2.
Proof. apply (bool_decide_unpack _). vm_compute. exact I. Qed.

Lemma p3_closed_universe : closed_universe air_cargo_p3.
Proof. apply (bool_decide_unpack _). vm_compute. exact I. Qed.

Lemma p2_names_disjoint x : x ∈ ["C1"; "C2"; "C3"] → x ∉ ["P1"; "P2"; "P3"].
Proof.
  intros Hx. repeat (apply elem_of_cons in Hx as [->|Hx]);
    [by apply (bool_decide_unpack _)..|by apply elem_of_nil in Hx].
Qed.

Lemma p3_names_disjoint x : x ∈ ["C1"; "C2"; "C3"; "C4"] → x ∉ ["P1"; "P2"].
Proof.
  intros Hx. repeat (apply elem_of_cons in Hx as [->|Hx]);
    [by apply (bool_decide_unpack _)..|by apply elem_of_nil in Hx].
Qed.

(** The three instances are sound planning problems.  The universe of each
    lists every fluent once and holds every literal of its ground actions
    and of its goal, and in every state a search from its initial state can
    reach, every plane is at exactly one airport and every cargo at exactly
    one airport or in exactly one plane. *)
Theorem instances_located self s :
  self ∈ [air_cargo_p1; air_cargo_p2; air_cargo_p3] →
  reachable self s →
  closed_universe self
  ∧ wf_state self s
  ∧ ∃ fs, decode_state s (state_map self) = Some fs
          ∧ planes_located self fs ∧ cargos_located self fs.
Proof.
  intros Hself Hreach.
  repeat (apply elem_of_cons in Hself as [->|Hself]);
    [| | |by apply elem_of_nil in Hself].
  - split; [exact p1_closed_universe|].
    exact (located_invariant _ _ _ _ _ s p1_names_disjoint p1_closed_universe
             (proj1 p1_initial_located) (proj2 p1_initial_located) Hreach).
  - split; [exact p2_closed_universe|].
    exact (located_invariant _ _ _ _ _ s p2_names_disjoint p2_closed_universe
             (proj1 p2_initial_located) (proj2 p2_initial_located) Hreach).
  - split; [exact p3_closed_universe|].
    exact (located_invariant _ _ _ _ _ s p3_names_disjoint p3_closed_universe
             (proj1 p3_initial_located) (proj2 p3_initial_located) Hreach).
Qed.

Lemma instances_located_witness :
  air_cargo_p2 ∈ [air_cargo_p1; air_cargo_p2; air_cargo_p3]
  ∧ reachable air_cargo_p2 (initial_state_TF air_cargo_p2)
  ∧ closed_universe air_cargo_p2
  ∧ wf_state air_cargo_p2 (initial_state_TF air_cargo_p2).
Proof.
  assert (H : air_cargo_p2 ∈ [air_cargo_p1; air_cargo_p2; air_cargo_p3])
    by (right; left).
  split; [exact H|]. split; [apply reachable_initial|].
  destruct (instances_located air_cargo_p2 (initial_state_TF air_cargo_p2)
              H (reachable_initial air_cargo_p2)) as (Hc & Hwf & _).
  split; [exact Hc|exact Hwf].
Defined.

(** * Admissibility of the ignore-preconditions heuristic *)

(** The heuristic never overestimates.  For a problem built by the
    constructor over a universe free of duplicates: whenever a plan of
    cached actions leads from a well-formed state to a state that passes the
    goal test, the heuristic of the first state is at most the length of
    the plan. *)
Theorem h_ignore_preconditions_admissible cs ps as_ initial goal_ s plan sg :
  let self := AirCargoProblem_init cs ps as_ initial goal_ in
  wf_state self s → NoDup (state_map self) →
  Forall (λ a, a ∈ actions_list self) plan →
  run_plan self s plan = Some sg →
  goal_test self sg = Some true →
  ∃ n, h_ignore_preconditions self (mkNode s) = Some n ∧ n ≤ length plan.
Proof.
  intros self Hwf Hnd Hplan. revert s Hwf.
  induction Hplan as [|a plan Ha _ IH]; intros s Hwf Hrun Hgoal.
  - simpl in Hrun. injection Hrun as <-.
    apply goal_test_true in Hgoal as (fs & Hd & Hholds).
    exists 0. split; [|done]. by apply (h_ignore_preconditions_goal self s fs).
  - simpl in Hrun.
    destruct (result self s a) as [s1|] eqn:Hr; [|done]. simpl in Hrun.
    destruct (decode_state_wf _ _ Hwf) as [fs Hd].
    destruct (result_successor self s a fs Hwf Hd) as (s1' & _ & Hr' & Hwf1 & _).
    rewrite Hr in Hr'. injection Hr' as <-.
    destruct (IH s1 Hwf1 Hrun Hgoal) as (n1 & Hn1 & Hle1).
    destruct (h_ignore_step self s a s1 Hwf Hnd Hr) as (n & n1' & Hn & Hn1' & Hle & _).
    rewrite Hn1 in Hn1'. injection Hn1' as <-.
    destruct (ground_action_fields cs ps as_ a Ha)
      as (_ & added & deleted & Hadd & _).
    rewrite Hadd in Hle. exists n. split; [done|]. simpl in *. lia.
Qed.

Lemma h_ignore_preconditions_admissible_witness :
  let self := air_cargo_p1 in
  let plan := [load_action "C1" "P1" "SFO"; fly_action "P1" "SFO" "JFK";
               unload_action "C1" "P1" "JFK"; load_action "C2" "P2" "JFK";
               fly_action "P2" "JFK" "SFO"; unload_action "C2" "P2" "SFO"] in
  let sg := ["F"; "F"; "F"; "F"; "T"; "F"; "F"; "T"; "F"; "F"; "T"; "T"]%char in
  wf_state self (initial_state_TF self)
  ∧ NoDup (state_map self)
  ∧ Forall (λ a, a ∈ actions_list self) plan
  ∧ run_plan self (initial_state_TF self) plan = Some sg
  ∧ goal_test self sg = Some true
  ∧ ∃ n, h_ignore_preconditions self (mkNode (initial_state_TF self)) = Some n
         ∧ n ≤ 6.
Proof.
  intros self plan sg.
  assert (Hplan : Forall (λ a, a ∈ actions_list self) plan).
  { repeat constructor; find_elem. }
  assert (Hrun : run_plan self (initial_state_TF self) plan = Some sg)
    by (vm_compute; reflexivity).
  assert (Hgoal : goal_test self sg = Some true) by (vm_compute; reflexivity).
  split; [apply p1_initial_wf|]. split; [apply p1_state_map_NoDup|].
  split; [exact Hplan|]. split; [exact Hrun|]. split; [exact Hgoal|].
  apply (h_ignore_preconditions_admissible ["C1"; "C2"] ["P1"; "P2"]
           ["JFK"; "SFO"] _ _ (initial_state_TF self) plan sg
           p1_initial_wf p1_state_map_NoDup Hplan Hrun Hgoal).
Defined.

(** * The constructor *)

(** Decoding an encoding sorts the universe by membership in the positive
    list. *)
Lemma decode_encode_state fs m :
  decode_state (encode_state fs m) m
  = Some (mkFluentState (filter (λ f, f ∈ pos fs) m)
                        (filter (λ f, f ∉ pos fs) m)).
Proof.
  induction m as [|f m IH]; [done|]. simpl. rewrite IH. simpl.
  rewrite !filter_cons.
  destruct (decide (f ∈ pos fs)) as [Hf|Hf].
  - rewrite (bool_decide_eq_true_2 _ Hf). simpl.
    by rewrite decide_False by (by intros ?).
  - rewrite (bool_decide_eq_false_2 _ Hf). simpl.
    by rewrite decide_True by done.
Qed.

Lemma encode_state_all_T fs l :
  Forall (λ f, f ∈ pos fs) l →
  encode_state fs l = replicate (length l) "T"%char.
Proof.
  induction 1 as [|f l Hf _ IH]; [done|]. simpl.
  by rewrite (bool_decide_eq_true_2 _ Hf), <-IH.
Qed.

Lemma encode_state_all_F fs l :
  Forall (λ f, f ∉ pos fs) l →
  encode_state fs l = replicate (length l) "F"%char.
Proof.
  induction 1 as [|f l Hf _ IH]; [done|]. simpl.
  by rewrite (bool_decide_eq_false_2 _ Hf), <-IH.
Qed.

(** The constructor encodes the initial state losslessly.  When no fluent
    is listed twice in the initial state, across its positive and negative
    lists, [initial_state_TF] is one 'T' per positive fluent followed by one
    'F' per negative fluent, it is well formed, and it decodes to the
    initial state itself. *)
Theorem init_round_trip cs ps as_ initial goal_ :
  let self := AirCargoProblem_init cs ps as_ initial goal_ in
  NoDup (pos initial ++ neg initial) →
  initial_state_TF self
  = replicate (length (pos initial)) "T"%char
    ++ replicate (length (neg initial)) "F"%char
  ∧ wf_state self (initial_state_TF self)
  ∧ decode_state (initial_state_TF self) (state_map self) = Some initial.
Proof.
  intros self Hnd. apply NoDup_app in Hnd as (_ & Hdisj & _).
  assert (Hpos : filter (λ f, f ∈ pos initial) (pos initial ++ neg initial)
                 = pos initial).
  { rewrite filter_app, filter_all, filter_none, app_nil_r; [done| |].
    - apply Forall_forall. intros f Hf Hp. by apply (Hdisj f).
    - by apply Forall_forall. }
  assert (Hneg : filter (λ f, f ∉ pos initial) (pos initial ++ neg initial)
                 = neg initial).
  { rewrite filter_app, filter_none, filter_all; [done| |].
    - apply Forall_forall. intros f Hf Hp. by apply (Hdisj f).
    - apply Forall_forall. intros f Hf Hn. by apply Hn. }
  split; [|split].
  - simpl. unfold encode_state. rewrite map_app. f_equal.
    + apply encode_state_all_T. by apply Forall_forall.
    + apply encode_state_all_F, Forall_forall. intros f Hf Hp.
      by apply (Hdisj f).
  - apply wf_state_encode.
  - simpl. rewrite decode_encode_state, Hpos, Hneg. by destruct initial.
Qed.

Lemma init_round_trip_witness :
  let initial := mkFluentState
      [At "C1" "SFO"; At "C2" "JFK"; At "P1" "SFO"; At "P2" "JFK"]
      [At "C2" "SFO"; In_ "C2" "P1"; In_ "C2" "P2"; At "C1" "JFK";
       In_ "C1" "P1"; In_ "C1" "P2"; At "P1" "JFK"; At "P2" "SFO"] in
  NoDup (pos initial ++ neg initial)
  ∧ decode_state (initial_state_TF air_cargo_p1) (state_map air_cargo_p1)
    = Some initial.
Proof.
  intros initial.
  assert (Hnd : NoDup (pos initial ++ neg initial)) by exact p1_state_map_NoDup.
  split; [exact Hnd|].
  apply (init_round_trip ["C1"; "C2"] ["P1"; "P2"] ["JFK"; "SFO"] initial
           [At "C1" "JFK"; At "C2" "SFO"] Hnd).
Defined.

(** * What a search meets *)

(** Every state a search can reach in a problem built by the constructor is
    well formed, whatever the initial state and the rosters: it has the
    width of the universe and carries 'T' and 'F' only. *)
Theorem reachable_wf cs ps as_ initial goal_ s :
  let self := AirCargoProblem_init cs ps as_ initial goal_ in
  reachable self s →
  wf_state self s ∧ length s = length (pos initial ++ neg initial).
Proof.
  intros self Hreach.
  assert (wf_state self s) as Hwf; [|split; [done|apply Hwf]].
  induction Hreach as [|s acts a s' _ Hwf _ _ Hr].
  - apply wf_state_encode.
  - destruct (decode_state_wf _ _ Hwf) as [fs Hd].
    destruct (result_successor self s a fs Hwf Hd) as (s1 & _ & Hr1 & Hwf1 & _).
    rewrite Hr in Hr1. by injection Hr1 as <-.
Qed.

Lemma reachable_wf_witness :
  reachable air_cargo_p1
    ["F"; "T"; "T"; "T"; "F"; "F"; "F"; "F"; "T"; "F"; "F"; "F"]%char
  ∧ wf_state air_cargo_p1
      ["F"; "T"; "T"; "T"; "F"; "F"; "F"; "F"; "T"; "F"; "F"; "F"]%char.
Proof.
  split; [exact p1_loaded_reachable|].
  apply (reachable_wf ["C1"; "C2"] ["P1"; "P2"] ["JFK"; "SFO"] _
           [At "C1" "JFK"; At "C2" "SFO"] _ p1_loaded_reachable).
Defined.



(** Over a universe free of duplicates the heuristic of a well-formed
    state is at most the number of goal fluents. *)
Theorem h_ignore_preconditions_bounded self s :
  wf_state self s → NoDup (state_map self) →
  ∃ n, h_ignore_preconditions self (mkNode s) = Some n
       ∧ n ≤ length (goal self).
Proof.
  intros Hwf Hnd. destruct (decode_state_wf _ _ Hwf) as [fs Hd].
  rewrite (h_ignore_preconditions_size self s fs Hwf Hnd Hd).
  eexists. split; [done|].
  etrans; [|apply size_list_to_set_le].
  apply subseteq_size. intros g [_ Hg]%elem_of_filter. done.
Qed.

Lemma h_ignore_preconditions_bounded_witness :
  wf_state air_cargo_p1 (initial_state_TF air_cargo_p1)
  ∧ NoDup (state_map air_cargo_p1)
  ∧ ∃ n, h_ignore_preconditions air_cargo_p1
           (mkNode (initial_state_TF air_cargo_p1)) = Some n
         ∧ n ≤ 2.
Proof.
  split; [apply p1_initial_wf|]. split; [apply p1_state_map_NoDup|].
  apply (h_ignore_preconditions_bounded air_cargo_p1
           (initial_state_TF air_cargo_p1) p1_initial_wf p1_state_map_NoDup).
Defined.

(** A goal literal that is no universe fluent can never be satisfied:
    whenever the goal test passes, every goal literal is a fluent of
    [state_map]. *)
Theorem goal_test_needs_universe self s :
  goal_test self s = Some true →
  Forall (λ g, g ∈ state_map self) (goal self).
Proof.
  intros (fs & Hd & Hholds)%goal_test_true.
  eapply Forall_impl; [exact Hholds|]. intros g Hg.
  exact (decode_state_pos_universe _ _ _ _ Hd Hg).
Qed.

Lemma goal_test_needs_universe_witness :
  let s := ["F"; "T"; "T"; "T"; "T"; "F"; "F"; "T"; "F"; "F"; "F"; "F"]%char in
  goal_test air_cargo_p1 s = Some true
  ∧ Forall (λ g, g ∈ state_map air_cargo_p1) (goal air_cargo_p1).
Proof.
  intros s.
  assert (Hg : goal_test air_cargo_p1 s = Some true) by (vm_compute; reflexivity).
  split; [exact Hg|].
  apply (goal_test_needs_universe air_cargo_p1 s Hg).
Defined.
